(** * scratch.js: loops, folds and array helpers built from recursion

    A shallow embedding of [src/scratch.js] and the properties of its
    eight functions ([while], [for], [forEach], [reduce], [map],
    [filter], [pluck], [compact]).

    The JavaScript code is effectful: callbacks may throw, may not
    terminate, and may write to closure variables and to arrays that the
    library is traversing.  The embedding therefore threads a [world]
    (a store of arrays plus the captured variables of the caller's
    closures) through every call, returns an explicit outcome
    ([Ok], [Throw] or [Timeout]) and bounds the recursion of [while]
    by a fuel argument.

    What is modelled and what is not:
    - a sequence argument is the address of an array in the store;
      arrays are dense, strings and array-like objects are not taken as
      sequences;
    - numbers are integers; plain objects are records of named fields
      and are values (the library never writes to them); functions are
      not values, so an array cannot hold one, and a function-typed
      argument is a [func], callable or not;
    - a callback is any function from its arguments and the world to an
      outcome and a new world. *)

From Stdlib Require Import ZArith DecimalString.
From stdpp Require Import base list strings.

Local Open Scope string_scope.
Local Open Scope Z_scope.
Local Open Scope nat_scope.
Local Open Scope list_scope.

(** ** Values and the store *)

Definition loc := nat.

(** JavaScript values.  Numbers are the integers; arrays live in the
    store and are denoted by their address, so two references to one
    array alias; plain objects are records of named fields. *)
#[warnings="-register-all"]
Inductive value : Type :=
| VUndefined
| VNull
| VBool (b : bool)
| VNum (n : Z)
| VStr (s : string)
| VObj (fields : list (string * value))
| VArr (l : loc).

(** What a [throw] carries: either a value of the program (the string
    that [while] throws), or an error object created by the host, of
    which only the class [TypeError] is needed here. *)
Inductive exn : Type :=
| Thrown (v : value)
| TypeError (msg : string).

Inductive res (A : Type) : Type :=
| Ok (a : A)
| Throw (e : exn)
| Timeout.
Arguments Ok {A} a.
Arguments Throw {A} e.
Arguments Timeout {A}.

(** The store maps an address to the elements of the array allocated
    there; [user] holds the variables captured by the closures that are
    live (the caller's, and on top of them the locals of the library
    functions that are running). *)
Record world (U : Type) : Type := World { heap : list (list value); user : U }.
Arguments World {U} heap user.
Arguments heap {U} w.
Arguments user {U} w.

Definition M (U A : Type) : Type := world U -> res A * world U.

Definition ret {U A} (a : A) : M U A := fun w => (Ok a, w).

Definition bind {U A B} (m : M U A) (k : A -> M U B) : M U B :=
  fun w =>
    match m w with
    | (Ok a, w') => k a w'
    | (Throw e, w') => (Throw e, w')
    | (Timeout, w') => (Timeout, w')
    end.

Definition throw {U A} (e : exn) : M U A := fun w => (Throw e, w).

Definition timeout {U A} : M U A := fun w => (Timeout, w).

Notation "'let!' x ':=' m 'in' k" := (bind m (fun x => k))
  (at level 10, x name, m at level 100, k at level 200).
Notation "m '>>' k" := (bind m (fun _ => k))
  (at level 62, right associativity).

(** A function-typed argument as the callee receives it: a callable,
    which takes the list of actual arguments, or some other value. *)
Inductive func (U : Type) : Type :=
| Fn (f : list value -> M U value)
| NotFn (v : value).
Arguments Fn {U} f.
Arguments NotFn {U} v.

(** [f(args)]: calling what is not a function is the host's TypeError. *)
Definition call {U} (f : func U) (args : list value) : M U value :=
  match f with
  | Fn g => g args
  | NotFn _ => throw (TypeError "not a function")
  end.

(** The n-th formal parameter; a missing argument is [undefined]. *)
Definition arg (n : nat) (args : list value) : value :=
  default VUndefined (args !! n).

(** [ToBoolean]. *)
Definition truthy (v : value) : bool :=
  match v with
  | VUndefined | VNull => false
  | VBool b => b
  | VNum n => negb (n =? 0)%Z
  | VStr s => negb (String.eqb s "")
  | VObj _ | VArr _ => true
  end.

(** [v != null]: only [null] and [undefined] are loosely equal to
    [null]. *)
Definition not_nullish (v : value) : bool :=
  match v with
  | VUndefined | VNull => false
  | _ => true
  end.

(** *** Arrays in the store *)

Definition elems {U} (w : world U) (a : loc) : list value :=
  default [] (heap w !! a).

(** [array.length] *)
Definition array_length {U} (a : loc) : M U nat :=
  fun w => (Ok (length (elems w a)), w).

(** [array[i]] for an index that may be [undefined] or [NaN] (rendered
    [None]); reading outside the array gives [undefined]. *)
Definition array_get {U} (a : loc) (i : option nat) : M U value :=
  fun w =>
    (Ok match i with
        | Some n => default VUndefined (elems w a !! n)
        | None => VUndefined
        end, w).

(** The array literal [[]]: a fresh array at the next free address. *)
Definition new_array {U} : M U value :=
  fun w => (Ok (VArr (length (heap w))), World (heap w ++ [[]]) (user w)).

(** [result.push(x)] once [x] has been evaluated: appends in place and
    returns the new length. *)
Definition array_push {U} (result : value) (x : value) : M U value :=
  fun w =>
    match result with
    | VArr r =>
        match heap w !! r with
        | Some es =>
            (Ok (VNum (Z.of_nat (S (length es)))),
             World (<[r := es ++ [x]]> (heap w)) (user w))
        | None => (Throw (TypeError "push is not a function"), w)
        end
    | _ => (Throw (TypeError "push is not a function"), w)
    end.

(** Looking up [result.push] fails at once on [null] and [undefined],
    before the argument of the call is evaluated. *)
Definition member_base {U} (v : value) : M U unit :=
  match v with
  | VUndefined | VNull => throw (TypeError "cannot read properties of null or undefined")
  | _ => ret tt
  end.

(** [element[property]]: own data properties only.  What an element
    inherits from a prototype ([constructor], [toString], [valueOf],
    [__proto__], ...) is a function or a host object, which [value] does
    not contain: for such a name the model's [undefined] is not what the
    host returns, and no statement below is about such names.  The
    length and the indices of a string count its bytes. *)
Fixpoint assoc (k : string) (fs : list (string * value)) : value :=
  match fs with
  | [] => VUndefined
  | (k', v) :: fs' => if String.eqb k k' then v else assoc k fs'
  end.

(** A property name that is an array index: the canonical decimal
    numeral of a natural number. *)
Definition array_index (property : string) : option nat :=
  match NilEmpty.uint_of_string property with
  | Some d =>
      let n := Nat.of_uint d in
      if String.eqb (NilEmpty.string_of_uint (Nat.to_uint n)) property
      then Some n else None
  | None => None
  end.

Definition property_of (store : list (list value)) (v : value)
    (property : string) : res value :=
  match v with
  | VUndefined | VNull =>
      Throw (TypeError "cannot read properties of null or undefined")
  | VBool _ | VNum _ => Ok VUndefined
  | VStr s =>
      Ok (if String.eqb property "length"
          then VNum (Z.of_nat (String.length s))
          else match array_index property ≫= fun i => String.get i s with
               | Some c => VStr (String c EmptyString)
               | None => VUndefined
               end)
  | VObj fs => Ok (assoc property fs)
  | VArr a =>
      let es := default [] (store !! a) in
      Ok (if String.eqb property "length"
          then VNum (Z.of_nat (length es))
          else default VUndefined (array_index property ≫= fun i => es !! i))
  end.

Definition get_property {U} (v : value) (property : string) : M U value :=
  fun w => (property_of (heap w) v property, w).

(** *** Local variables captured by closures

    A library function that declares a variable and hands closures over
    it to another function runs that function in a world whose [user]
    part is extended by the variable; the closures of its own caller
    are lifted and cannot see it. *)

Definition scope {U L A} (l0 : L) (m : M (L * U) A) : M U A :=
  fun w =>
    let '(r, w') := m (World (heap w) (l0, user w)) in
    (r, World (heap w') (snd (user w'))).

Definition lift {U L A} (m : M U A) : M (L * U) A :=
  fun w =>
    let '(r, w') := m (World (heap w) (snd (user w))) in
    (r, World (heap w') (fst (user w), user w')).

Definition lift_func {U L} (f : func U) : func (L * U) :=
  match f with
  | Fn g => Fn (fun args => lift (g args))
  | NotFn v => NotFn v
  end.

Definition get_local {U L} : M (L * U) L :=
  fun w => (Ok (fst (user w)), w).

Definition set_local {U L} (l : L) : M (L * U) unit :=
  fun w => (Ok tt, World (heap w) (l, snd (user w))).

(** ** The library *)

Module scratch.

Definition while_message : string :=
  "Remember, you need to pass a FUNCTION to scratch.while!".

(** The inner [loop] of [while]: one unit of fuel per recursive call. *)
Fixpoint loop {U} (fuel : nat) (condition fn : func U) : M U value :=
  match fuel with
  | O => timeout
  | S fuel' =>
      let! c := call condition [] in
      if truthy c
      then call fn [] >> loop fuel' condition fn
      else ret VUndefined
  end.

Definition while_ {U} (fuel : nat) (condition fn : func U) : M U value :=
  match condition with
  | NotFn _ => throw (Thrown (VStr while_message))
  | Fn _ => loop fuel condition fn >> ret VUndefined
  end.

(** The body that [for] hands to [while]: [function() { fn(); update(); }]. *)
Definition for_body {U} (update fn : func U) : func U :=
  Fn (fun _ => call fn [] >> call update [] >> ret VUndefined).

Definition for_ {U} (fuel : nat) (init condition update fn : func U)
  : M U value :=
  call init [] >>
  while_ fuel condition (for_body update fn) >>
  ret VUndefined.

(** The four closures of [forEach] over its local [i], which is [None]
    while it is [undefined]. *)

(* for::init *)
Definition forEach_init {U} : func (option nat * U) :=
  Fn (fun _ => set_local (Some 0) >> ret VUndefined).

(* for::condition *)
Definition forEach_condition {U} (array : loc) : func (option nat * U) :=
  Fn (fun _ =>
        let! i := get_local in
        let! n := array_length array in
        ret (VBool match i with Some k => k <? n | None => false end)).

(* for::update *)
Definition forEach_update {U} : func (option nat * U) :=
  Fn (fun _ =>
        let! i := get_local in
        set_local (S <$> i) >> ret VUndefined).

(* for::fn *)
Definition forEach_fn {U} (array : loc) (fn : func U) : func (option nat * U) :=
  Fn (fun _ =>
        let! i := get_local in
        let! x := array_get array i in
        call (lift_func fn) [x] >> ret VUndefined).

Definition forEach {U} (fuel : nat) (array : loc) (fn : func U) : M U value :=
  scope (None : option nat)
    (for_ fuel forEach_init (forEach_condition array) forEach_update
       (forEach_fn array fn)) >>
  ret VUndefined.

(** The callback of [reduce] over its variable [memo]. *)
Definition reduce_fn {U} (aggregator : func U) : func (value * U) :=
  Fn (fun args =>
        let element := arg 0 args in
        let! memo := get_local in
        let! memo' := call (lift_func aggregator) [memo; element] in
        set_local memo' >> ret VUndefined).

Definition reduce {U} (fuel : nat) (array : loc) (aggregator : func U)
    (memo : value) : M U value :=
  scope memo (forEach fuel array (reduce_fn aggregator) >> get_local).

Definition map_aggregator {U} (selector : func U) : func U :=
  Fn (fun args =>
        let result := arg 0 args in
        let element := arg 1 args in
        member_base result >>
        let! x := call selector [element] in
        array_push result x >>
        ret result).

Definition map {U} (fuel : nat) (array : loc) (selector : func U) : M U value :=
  let! memo := new_array in
  reduce fuel array (map_aggregator selector) memo.

Definition filter_aggregator {U} (predicate : func U) : func U :=
  Fn (fun args =>
        let result := arg 0 args in
        let element := arg 1 args in
        let! p := call predicate [element] in
        (if truthy p
         then member_base result >> array_push result element >> ret tt
         else ret tt) >>
        ret result).

Definition filter {U} (fuel : nat) (array : loc) (predicate : func U)
  : M U value :=
  let! memo := new_array in
  reduce fuel array (filter_aggregator predicate) memo.

Definition pluck {U} (fuel : nat) (array : loc) (property : string)
  : M U value :=
  map fuel array (Fn (fun args => get_property (arg 0 args) property)).

Definition compact {U} (fuel : nat) (array : loc) : M U value :=
  filter fuel array (Fn (fun args => ret (VBool (not_nullish (arg 0 args))))).

End scratch.

(** ** Running the library on the examples of the documentation *)

Definition run {A} (m : M unit A) (h : list (list value)) : res A * list (list value) :=
  let '(r, w) := m (World h tt) in (r, heap w).

Definition double : func unit :=
  Fn (fun args => ret match arg 0 args with VNum n => VNum (2 * n) | v => v end).

Definition add : func unit :=
  Fn (fun args => ret match arg 0 args, arg 1 args with
                      | VNum a, VNum b => VNum (a + b)
                      | _, _ => VUndefined
                      end).

Definition is_even : func unit :=
  Fn (fun args => ret match arg 0 args with
                      | VNum n => VBool (Z.even n)
                      | _ => VBool false
                      end).

Example reduce_sum :
  run (scratch.reduce 10 0 add (VNum 0)) [[VNum 1; VNum 2; VNum 3]]
  = (Ok (VNum 6), [[VNum 1; VNum 2; VNum 3]]).
Proof. reflexivity. Qed.

Example map_double :
  run (scratch.map 10 0 double) [[VNum 1; VNum 2; VNum 3]]
  = (Ok (VArr 1), [[VNum 1; VNum 2; VNum 3]; [VNum 2; VNum 4; VNum 6]]).
Proof. reflexivity. Qed.

Example map_empty :
  run (scratch.map 10 0 double) [[]] = (Ok (VArr 1), [[]; []]).
Proof. reflexivity. Qed.

Example filter_none :
  run (scratch.filter 10 0 (Fn (fun _ => ret (VBool false))))
    [[VNum 1; VNum 2; VNum 3]]
  = (Ok (VArr 1), [[VNum 1; VNum 2; VNum 3]; []]).
Proof. reflexivity. Qed.

Example filter_even :
  run (scratch.filter 10 0 is_even) [[VNum 1; VNum 2; VNum 3; VNum 4]]
  = (Ok (VArr 1), [[VNum 1; VNum 2; VNum 3; VNum 4]; [VNum 2; VNum 4]]).
Proof. reflexivity. Qed.

Example array_index_examples :
  array_index "0" = Some 0 ∧ array_index "12" = Some 12
  ∧ array_index "01" = None ∧ array_index "" = None ∧ array_index "a" = None.
Proof. repeat split. Qed.

Example pluck_index :
  run (scratch.pluck 10 0 "1") [[VArr 1; VStr "xyz"; VNum 5]; [VNum 3; VNum 4]]
  = (Ok (VArr 2),
     [[VArr 1; VStr "xyz"; VNum 5]; [VNum 3; VNum 4];
      [VNum 4; VStr "y"; VUndefined]]).
Proof. reflexivity. Qed.

Example pluck_a :
  run (scratch.pluck 10 0 "a") [[VObj [("a", VNum 1)]; VObj [("a", VNum 2)]]]
  = (Ok (VArr 1),
     [[VObj [("a", VNum 1)]; VObj [("a", VNum 2)]]; [VNum 1; VNum 2]]).
Proof. reflexivity. Qed.

(** ** The loops without their closures

    [forEach] and [reduce] keep their state in captured variables ([i],
    [memo]).  The two functions below make the same calls in the same
    order with the state passed as arguments; they re-read the length of
    the array on every round, as the code does. *)

Fixpoint each_from {U} (fuel : nat) (array : loc) (fn : func U) (i : nat)
  : M U value :=
  match fuel with
  | O => timeout
  | S fuel' => fun w =>
      if i <? length (elems w array)
      then (call fn [default VUndefined (elems w array !! i)] >>
            each_from fuel' array fn (S i)) w
      else (Ok VUndefined, w)
  end.

Fixpoint fold_from {U} (fuel : nat) (array : loc) (aggregator : func U)
    (i : nat) (memo : value) : M U value :=
  match fuel with
  | O => timeout
  | S fuel' => fun w =>
      if i <? length (elems w array)
      then (let! memo' :=
              call aggregator [memo; default VUndefined (elems w array !! i)] in
            fold_from fuel' array aggregator (S i) memo') w
      else (Ok memo, w)
  end.

(** Dropping the innermost local variable. *)
Definition pop {U L} (w : world (L * U)) : world U :=
  World (heap w) (snd (user w)).

Definition push {U L} (l : L) (w : world U) : world (L * U) :=
  World (heap w) (l, user w).

(** The outcome of a run with a local variable, seen from outside. *)
Definition leave {U L A} (p : res A * world (L * U)) : res A * world U :=
  (fst p, pop (snd p)).

Lemma scope_leave {U L A} (l0 : L) (m : M (L * U) A) (w : world U) :
  scope l0 m w = leave (m (push l0 w)).
Proof. unfold scope, leave, push, pop. by destruct (m _). Qed.

Lemma pop_push {U L} (l : L) (w : world U) : pop (push l w) = w.
Proof. by destruct w. Qed.

Lemma elems_push {U L} (l : L) (w : world U) a : elems (push l w) a = elems w a.
Proof. reflexivity. Qed.

Lemma lift_push {U L A} (m : M U A) (l : L) (w : world U) :
  lift m (push l w) = (fst (m w), push l (snd (m w))).
Proof. unfold lift, push; simpl. destruct w as [h u]; simpl. by destruct (m _). Qed.

Lemma call_lift_func {U L} (fn : func U) (args : list value) (l : L) (w : world U) :
  call (lift_func fn) args (push l w)
  = (fst (call fn args w), push l (snd (call fn args w))).
Proof. destruct fn as [g|v]; [apply lift_push | reflexivity]. Qed.

Lemma for_body_run {U} (update fn : func U) (w : world U) :
  call (scratch.for_body update fn) [] w
  = match call fn [] w with
    | (Ok _, w1) =>
        match call update [] w1 with
        | (Ok _, w2) => (Ok VUndefined, w2)
        | (Throw e, w2) => (Throw e, w2)
        | (Timeout, w2) => (Timeout, w2)
        end
    | (Throw e, w1) => (Throw e, w1)
    | (Timeout, w1) => (Timeout, w1)
    end.
Proof.
  cbn [call scratch.for_body]. unfold bind, ret.
  by destruct (call fn [] w) as [[x|e|] w1].
Qed.

Section Fusion.
Context {U : Type}.

Lemma forEach_condition_run (a : loc) (i : nat) (w : world U) :
  call (scratch.forEach_condition a) [] (push (Some i) w)
  = (Ok (VBool (i <? length (elems w a))), push (Some i) w).
Proof. reflexivity. Qed.

Lemma forEach_update_run (i : nat) (w : world U) :
  call scratch.forEach_update [] (push (Some i) w)
  = (Ok VUndefined, push (Some (S i)) w).
Proof. reflexivity. Qed.

Lemma forEach_fn_run (a : loc) (fn : func U) (i : nat) (w : world U) :
  call (scratch.forEach_fn a fn) [] (push (Some i) w)
  = let r := call fn [default VUndefined (elems w a !! i)] w in
    (match fst r with Ok _ => Ok VUndefined | Throw e => Throw e | Timeout => Timeout end,
     push (Some i) (snd r)).
Proof.
  cbn [call scratch.forEach_fn]. unfold bind, get_local, array_get.
  cbn [push user heap fst]. fold (push (Some i) w).
  rewrite call_lift_func, elems_push.
  by destruct (call fn _ w) as [[x|e|] w1].
Qed.

Lemma loop_each_from (a : loc) (fn : func U) (fuel i : nat) (w : world U) :
  leave (scratch.loop fuel (scratch.forEach_condition a)
           (scratch.for_body scratch.forEach_update (scratch.forEach_fn a fn))
           (push (Some i) w))
  = each_from fuel a fn i w.
Proof.
  revert i w.
  induction fuel as [|fuel IH]; intros i w.
  - unfold leave; cbn. by rewrite pop_push.
  - cbn [scratch.loop each_from]. unfold bind at 1.
    rewrite forEach_condition_run. cbn [truthy].
    destruct (i <? length (elems w a)); [|unfold ret, leave; cbn; by rewrite pop_push].
    unfold bind at 1. rewrite for_body_run, forEach_fn_run. cbv zeta.
    unfold bind at 1.
    destruct (call fn _ w) as [[x|e|] w1]; cbn [fst snd];
      [|unfold leave; cbn [fst snd]; by rewrite pop_push ..].
    rewrite forEach_update_run. apply IH.
Qed.

Lemma each_from_undefined (a : loc) (fn : func U) (fuel i : nat)
    (w w' : world U) (v : value) :
  each_from fuel a fn i w = (Ok v, w') → v = VUndefined.
Proof.
  revert i w. induction fuel as [|fuel IH]; intros i w; [discriminate|].
  cbn [each_from]. destruct (i <? _); [|congruence].
  unfold bind. destruct (call fn _ w) as [[x|e|] w1]; [|discriminate ..].
  apply IH.
Qed.

(** [forEach] is [each_from] started at index 0. *)
Lemma forEach_each_from (fuel : nat) (a : loc) (fn : func U) (w : world U) :
  scratch.forEach fuel a fn w = each_from fuel a fn 0 w.
Proof.
  pose proof (loop_each_from a fn fuel 0 w) as Hl.
  pose proof (each_from_undefined a fn fuel 0 w) as Hv.
  unfold scratch.forEach. unfold bind at 1. rewrite scope_leave.
  unfold scratch.for_, scratch.while_. cbn [scratch.forEach_condition].
  fold (@scratch.forEach_condition U a).
  unfold bind at 1.
  change (call scratch.forEach_init [] (push None w))
    with (Ok VUndefined, push (Some 0) w).
  unfold bind at 1, bind at 1.
  destruct (scratch.loop fuel _ _ _) as [[v|e|] w1];
    unfold leave in *; cbn [fst snd] in *; rewrite <- Hl; [|reflexivity ..].
  unfold ret. cbn [fst snd]. f_equal. f_equal. symmetry. by eapply Hv.
Qed.

End Fusion.

Section FoldFusion.
Context {U : Type}.

Lemma reduce_fn_run (agg : func U) (m x : value) (w : world U) :
  call (scratch.reduce_fn agg) [x] (push m w)
  = let r := call agg [m; x] w in
    match fst r with
    | Ok m' => (Ok VUndefined, push m' (snd r))
    | Throw e => (Throw e, push m (snd r))
    | Timeout => (Timeout, push m (snd r))
    end.
Proof.
  cbn [call scratch.reduce_fn]. unfold bind, get_local.
  cbn [push user heap fst arg]. fold (push m w).
  rewrite call_lift_func. cbn [lookup list_lookup default].
  by destruct (call agg _ w) as [[y|e|] w1].
Qed.

Lemma each_fold_from (a : loc) (agg : func U) (fuel i : nat) (m : value)
    (w : world U) :
  leave ((each_from fuel a (scratch.reduce_fn agg) i >> get_local) (push m w))
  = fold_from fuel a agg i m w.
Proof.
  revert i m w. induction fuel as [|fuel IH]; intros i m w.
  - unfold leave, bind; cbn. by rewrite pop_push.
  - specialize (IH (S i)). unfold bind in *. cbn [each_from fold_from].
    rewrite elems_push.
    destruct (i <? length (elems w a));
      [|unfold leave; cbn; by rewrite pop_push].
    unfold bind. rewrite reduce_fn_run. cbv zeta.
    destruct (call agg _ w) as [[m'|e|] w1]; cbn [fst snd];
      [apply IH | unfold leave; cbn [fst snd]; by rewrite pop_push ..].
Qed.

(** [reduce] is [fold_from] started at index 0. *)
Lemma reduce_fold_from (fuel : nat) (a : loc) (agg : func U) (m : value)
    (w : world U) :
  scratch.reduce fuel a agg m w = fold_from fuel a agg 0 m w.
Proof.
  unfold scratch.reduce. rewrite scope_leave, <- each_fold_from.
  unfold bind. by rewrite forEach_each_from.
Qed.
End FoldFusion.

(** ** Observing the calls of a callback

    The library is polymorphic in the captured state, so the calls it
    makes can be observed by running it on callbacks that keep a log in
    front of their own state.  [announce] records an event when the
    callback is entered; [traced] records, when the callback returns,
    an event computed from the arguments, the store at the time of the
    call and the value returned. *)

Definition announce {U E} (e : E) (f : list value -> M U value)
  : func (list E * U) :=
  Fn (fun args w =>
        lift (f args) (World (heap w) (fst (user w) ++ [e], snd (user w)))).

Definition traced {U E} (ev : list value -> list (list value) -> value -> E)
    (f : list value -> M U value) : func (list E * U) :=
  Fn (fun args w =>
        match lift (f args) w with
        | (Ok v, w') =>
            (Ok v, World (heap w')
                     (fst (user w') ++ [ev args (heap w) v], snd (user w')))
        | other => other
        end).

Definition log_of {U E} (w : world (list E * U)) : list E := fst (user w).

Lemma announce_run {U E} (e : E) (f : list value -> M U value) args
    (log : list E) (w : world U) :
  call (announce e f) args (push log w)
  = (fst (f args w), push (log ++ [e]) (snd (f args w))).
Proof. cbn [call announce push heap user fst snd]. apply (lift_push _ (log ++ [e]) w). Qed.

Lemma traced_run {U E} (ev : list value -> list (list value) -> value -> E)
    (f : list value -> M U value) args (log : list E) (w : world U) :
  call (traced ev f) args (push log w)
  = match f args w with
    | (Ok v, w') => (Ok v, push (log ++ [ev args (heap w) v]) w')
    | (Throw e, w') => (Throw e, push log w')
    | (Timeout, w') => (Timeout, push log w')
    end.
Proof.
  cbn [call traced]. rewrite lift_push.
  by destruct (f args w) as [[v|e|] w'].
Qed.

(** *** Observation does not change the run

    A computation over the state extended by a log [covers] one over
    the plain state when, with the log dropped, the two have the same
    outcome.  Observed callbacks cover the callbacks they observe, and
    every function of the library run on covering callbacks covers its
    run on the plain ones: what is proved below about observed runs is
    about the runs themselves. *)

Definition covers {U L A} (m' : M (L * U) A) (m : M U A) : Prop :=
  ∀ l w, leave (m' (push l w)) = m w.

Definition covers_func {U L} (f' : func (L * U)) (f : func U) : Prop :=
  ∀ args, covers (call f' args) (call f args).

Lemma push_pop {U L} (w : world (L * U)) : push (fst (user w)) (pop w) = w.
Proof. by destruct w as [h [l u]]. Qed.

Lemma covers_ret {U L A} (x : A) : covers (L := L) (U := U) (ret x) (ret x).
Proof. intros l w. unfold leave, ret; cbn. by rewrite pop_push. Qed.

Lemma covers_bind {U L A B} (m' : M (L * U) A) (m : M U A)
    (k' : A -> M (L * U) B) (k : A -> M U B) :
  covers m' m → (∀ x, covers (k' x) (k x)) → covers (bind m' k') (bind m k).
Proof.
  intros Hm Hk l w. unfold bind. specialize (Hm l w).
  destruct (m' (push l w)) as [r w1']. rewrite <- Hm. unfold leave at 2.
  cbn [fst snd]. destruct r as [x|e|]; [|done ..].
  rewrite <- (push_pop w1') at 1. apply Hk.
Qed.

Lemma covers_traced {U E} (ev : list value -> list (list value) -> value -> E)
    (f : list value -> M U value) :
  covers_func (traced ev f) (Fn f).
Proof.
  intros args l w. rewrite traced_run. cbn [call].
  destruct (f args w) as [[v|e|] w1]; unfold leave; cbn [fst snd];
    by rewrite pop_push.
Qed.

Lemma covers_announce {U E} (e : E) (f : list value -> M U value) :
  covers_func (announce e f) (Fn f).
Proof.
  intros args l w. rewrite announce_run. cbn [call]. unfold leave.
  cbn [fst snd]. rewrite pop_push. by destruct (f args w).
Qed.

Lemma covers_loop {U L} (c' b' : func (L * U)) (c b : func U) (fuel : nat) :
  covers_func c' c → covers_func b' b →
  covers (scratch.loop fuel c' b') (scratch.loop fuel c b).
Proof.
  intros Hc Hb. induction fuel as [|fuel IH].
  - intros l w. unfold leave; cbn. by rewrite pop_push.
  - cbn [scratch.loop]. apply covers_bind; [apply Hc|]. intros x.
    destruct (truthy x); [|apply covers_ret].
    apply covers_bind; [apply Hb | done].
Qed.

Lemma covers_for {U L} (i' u' f' : func (L * U)) (i u f : func U)
    (g' : list value -> M (L * U) value) (g : list value -> M U value)
    (fuel : nat) :
  covers_func i' i → covers_func (Fn g') (Fn g) →
  covers_func u' u → covers_func f' f →
  covers (scratch.for_ fuel i' (Fn g') u' f') (scratch.for_ fuel i (Fn g) u f).
Proof.
  intros Hi Hc Hu Hf. unfold scratch.for_, scratch.while_.
  apply covers_bind; [apply Hi|]. intros _.
  apply covers_bind; [|intros _; apply covers_ret].
  apply covers_bind; [|intros _; apply covers_ret].
  apply covers_loop; [done|].
  intros args. cbn [call scratch.for_body].
  apply covers_bind; [apply Hf|]. intros _.
  apply covers_bind; [apply Hu|]. intros _. apply covers_ret.
Qed.

Lemma covers_each_from {U L} (f' : func (L * U)) (f : func U) (a : loc)
    (fuel i : nat) :
  covers_func f' f → covers (each_from fuel a f' i) (each_from fuel a f i).
Proof.
  intros Hf. revert i. induction fuel as [|fuel IH]; intros i l w.
  - unfold leave; cbn. by rewrite pop_push.
  - cbn [each_from]. rewrite elems_push.
    destruct (i <? _); [|unfold leave; cbn; by rewrite pop_push].
    by apply covers_bind.
Qed.

Lemma covers_fold_from {U L} (f' : func (L * U)) (f : func U) (a : loc)
    (fuel i : nat) (m : value) :
  covers_func f' f → covers (fold_from fuel a f' i m) (fold_from fuel a f i m).
Proof.
  intros Hf. revert i m. induction fuel as [|fuel IH]; intros i m l w.
  - unfold leave; cbn. by rewrite pop_push.
  - cbn [fold_from]. rewrite elems_push.
    destruct (i <? _); [|unfold leave; cbn; by rewrite pop_push].
    by apply covers_bind.
Qed.

Lemma covers_array_push {U L} (result x : value) :
  covers (L := L) (U := U) (array_push result x) (array_push result x).
Proof.
  intros l w. unfold array_push, leave. destruct result; cbn; try by rewrite pop_push.
  destruct w as [h u]. cbn. by destruct (h !! _).
Qed.

Lemma covers_member_base {U L} (v : value) :
  covers (L := L) (U := U) (member_base v) (member_base v).
Proof.
  intros l w. unfold leave. destruct v; cbn; by rewrite pop_push.
Qed.

Lemma covers_map_aggregator {U L} (s' : func (L * U)) (s : func U) :
  covers_func s' s →
  covers_func (scratch.map_aggregator s') (scratch.map_aggregator s).
Proof.
  intros Hs args. cbn [call scratch.map_aggregator].
  apply covers_bind; [apply covers_member_base|]. intros _.
  apply covers_bind; [apply Hs|]. intros x.
  apply covers_bind; [apply covers_array_push|]. intros _. apply covers_ret.
Qed.

Lemma covers_filter_aggregator {U L} (p' : func (L * U)) (p : func U) :
  covers_func p' p →
  covers_func (scratch.filter_aggregator p') (scratch.filter_aggregator p).
Proof.
  intros Hp args. cbn [call scratch.filter_aggregator].
  apply covers_bind; [apply Hp|]. intros x.
  apply covers_bind; [|intros _; apply covers_ret].
  destruct (truthy x); [|apply covers_ret].
  apply covers_bind; [apply covers_member_base|]. intros _.
  apply covers_bind; [apply covers_array_push|]. intros _. apply covers_ret.
Qed.

Lemma traced_forEach_is_forEach {U E}
    (ev : list value -> list (list value) -> value -> E)
    (F : list value -> M U value) (a : loc) (fuel : nat) :
  covers (scratch.forEach fuel a (traced ev F)) (scratch.forEach fuel a (Fn F)).
Proof.
  intros l w. rewrite !forEach_each_from.
  apply covers_each_from, covers_traced.
Qed.

Lemma traced_reduce_is_reduce {U E}
    (ev : list value -> list (list value) -> value -> E)
    (F : list value -> M U value) (a : loc) (fuel : nat) (m : value) :
  covers (scratch.reduce fuel a (traced ev F) m) (scratch.reduce fuel a (Fn F) m).
Proof.
  intros l w. rewrite !reduce_fold_from.
  apply covers_fold_from, covers_traced.
Qed.

Lemma covers_new_array {U L} : covers (L := L) (U := U) new_array new_array.
Proof. intros l w. unfold leave, new_array. cbn. by destruct w. Qed.

Lemma traced_map_is_map {U E}
    (ev : list value -> list (list value) -> value -> E)
    (F : list value -> M U value) (a : loc) (fuel : nat) :
  covers (scratch.map fuel a (traced ev F)) (scratch.map fuel a (Fn F)).
Proof.
  apply covers_bind; [apply covers_new_array|]. intros memo l w.
  rewrite !reduce_fold_from.
  apply covers_fold_from, covers_map_aggregator, covers_traced.
Qed.

Lemma traced_filter_is_filter {U E}
    (ev : list value -> list (list value) -> value -> E)
    (F : list value -> M U value) (a : loc) (fuel : nat) :
  covers (scratch.filter fuel a (traced ev F)) (scratch.filter fuel a (Fn F)).
Proof.
  apply covers_bind; [apply covers_new_array|]. intros memo l w.
  rewrite !reduce_fold_from.
  apply covers_fold_from, covers_filter_aggregator, covers_traced.
Qed.

(** ** [while]: the argument check *)

Definition is_type_error (e : exn) : bool :=
  match e with
  | TypeError _ => true
  | Thrown _ => false
  end.

(** ** [for]: the order of the calls *)

Inductive event : Type :=
| EInit
| ECond (b : bool)
| EBody
| EUpdate.

(** One full round of the loop, and [n] of them. *)
Definition round : list event := [ECond true; EBody; EUpdate].

Fixpoint rounds (n : nat) : list event :=
  match n with
  | O => []
  | S n' => round ++ rounds n'
  end.

(** [for] run on observed callbacks, from an empty log. *)
Definition observed_for {U} (fuel : nat)
    (init condition update fn : list value -> M U value) (w : world U)
  : res value * world (list event * U) :=
  scratch.for_ fuel
    (announce EInit init)
    (traced (fun _ _ v => ECond (truthy v)) condition)
    (announce EUpdate update)
    (announce EBody fn)
    (push [] w).

Lemma observed_for_is_for {U} (fuel : nat)
    (init condition update fn : list value -> M U value) (w : world U) :
  leave (observed_for fuel init condition update fn w)
  = scratch.for_ fuel (Fn init) (Fn condition) (Fn update) (Fn fn) w.
Proof.
  apply (covers_for (announce EInit init) (announce EUpdate update)
           (announce EBody fn) (Fn init) (Fn update) (Fn fn) _ condition fuel);
    try apply covers_announce.
  apply (covers_traced (fun _ _ v => ECond (truthy v)) condition).
Qed.

(** Some call of [f] without arguments had the outcome [r] and left the
    world [w]. *)
Definition stops {U} (f : list value -> M U value) (r : res value)
    (w : world U) : Prop :=
  ∃ w0, f [] w0 = (r, w).

Section CallOrder.
Context {U : Type}.
Variables init condition update fn : list value -> M U value.

Let cond' : func (list event * U) := traced (fun _ _ v => ECond (truthy v)) condition.
Let body' : func (list event * U) :=
  scratch.for_body (announce EUpdate update) (announce EBody fn).

(** What the log looks like after [loop], from any starting log: full
    rounds, then the falsy check that ended the loop; or, when the loop
    did not return, a round cut short by the body, which then is what
    did not return, or full rounds only, and then the condition or the
    update did not return or the fuel is used up, one unit per round. *)
Lemma loop_rounds (fuel : nat) (log : list event) (w : world U) r w' :
  scratch.loop fuel cond' body' (push log w) = (r, w') →
  ∃ n tail,
    log_of w' = log ++ rounds n ++ tail
    ∧ match r with
      | Ok v =>
          v = VUndefined ∧ tail = [ECond false]
          ∧ ∃ c, truthy c = false ∧ stops condition (Ok c) (pop w')
      | _ =>
          (tail = [ECond true; EBody] ∧ stops fn r (pop w'))
          ∨ (tail = []
             ∧ (stops condition r (pop w')
                ∨ (0 < n ∧ stops update r (pop w'))
                ∨ (r = Timeout ∧ n = fuel)))
      end.
Proof.
  revert log w. induction fuel as [|fuel IH]; intros log w.
  - intros [= <- <-]. exists 0, []. cbn. rewrite app_nil_r.
    split; [done|]. right. split; [done|]. by right; right.
  - cbn [scratch.loop]. unfold bind at 1. unfold cond' at 1.
    rewrite traced_run.
    destruct (condition [] w) as [[c|e|] w1] eqn:Hcond;
      [|intros [= <- <-]; exists 0, []; cbn; rewrite app_nil_r, pop_push;
        split; [done|]; right; split; [done|]; left; by exists w ..].
    destruct (truthy c) eqn:Hc.
    + unfold bind. unfold body' at 1. rewrite for_body_run.
      rewrite announce_run.
      destruct (fn [] w1) as [[x|e|] w2] eqn:Hfn; cbn [fst snd];
        [|intros [= <- <-]; exists 0, [ECond true; EBody]; cbn;
          rewrite <- app_assoc, pop_push;
          split; [done|]; left; split; [done|]; by exists w1 ..].
      rewrite announce_run.
      destruct (update [] w2) as [[y|e|] w3] eqn:Hupdate; cbn [fst snd];
        [|intros [= <- <-]; exists 1, []; cbn;
          rewrite <- !app_assoc, pop_push;
          split; [done|]; right; split; [done|]; right; left;
          split; [lia|]; by exists w2 ..].
      intros Hloop.
      destruct (IH _ _ Hloop) as (n & tail & Hlog & Hres).
      exists (S n), tail. split.
      { rewrite Hlog. cbn. by rewrite <- !app_assoc. }
      destruct r as [v|e|]; [exact Hres | |];
        (destruct Hres as [Hbody|[Htail [Hc'|[[Hn Hu]|[Ht Hn]]]]];
         [by left
         |right; split; [done|]; by left
         |right; split; [done|]; right; left; split; [lia | done]
         |right; split; [done|]; right; right; split; [done | lia]]).
    + intros [= <- <-]. exists 0, [ECond false]. cbn. rewrite pop_push.
      split; [done|]. split; [done|]. split; [done|].
      exists c. split; [done|]. by exists w.
Qed.

(** C7. [for] calls [init] once, first; then every round whose check
    is truthy runs the body and then the update before the next check;
    the call returns [undefined] after the first falsy check, and when
    that is the very first check no update has run.  The rounds go on
    until then: when the call does not return, either the log ends
    with a body that was entered, and it is that run of the body that
    did not return (threw, or ran for ever), or the log ends with a full
    round (or with [init]), and it is [init], the condition or the
    update that did not return, or the recursion depth is used up, one
    level per round. *)
Theorem for_call_order (fuel : nat) (w : world U) :
  let '(r, w') := observed_for fuel init condition update fn w in
  (∃ n tail,
     log_of w' = EInit :: rounds n ++ tail
     ∧ match r with
       | Ok v =>
           v = VUndefined ∧ tail = [ECond false]
           ∧ ∃ c, truthy c = false ∧ stops condition (Ok c) (pop w')
       | _ =>
           (tail = [ECond true; EBody] ∧ stops fn r (pop w'))
           ∨ (tail = []
              ∧ ((n = 0 ∧ stops init r (pop w'))
                 ∨ stops condition r (pop w')
                 ∨ (0 < n ∧ stops update r (pop w'))
                 ∨ (r = Timeout ∧ n = fuel)))
       end)
  ∧ (log_of w' !! 1 = Some (ECond false) → log_of w' = [EInit; ECond false]).
Proof.
  destruct (observed_for fuel init condition update fn w) as [r w'] eqn:Hrun.
  assert (∃ n tail,
     log_of w' = EInit :: rounds n ++ tail
     ∧ match r with
       | Ok v =>
           v = VUndefined ∧ tail = [ECond false]
           ∧ ∃ c, truthy c = false ∧ stops condition (Ok c) (pop w')
       | _ =>
           (tail = [ECond true; EBody] ∧ stops fn r (pop w'))
           ∨ (tail = []
              ∧ ((n = 0 ∧ stops init r (pop w'))
                 ∨ stops condition r (pop w')
                 ∨ (0 < n ∧ stops update r (pop w'))
                 ∨ (r = Timeout ∧ n = fuel)))
       end) as Hshape.
  { revert Hrun. unfold observed_for, scratch.for_. unfold bind at 1.
    rewrite announce_run. cbn [app].
    destruct (init [] w) as [[x|e|] w1] eqn:Hinit; cbn [fst snd];
      [|intros [= <- <-]; exists 0, []; cbn; rewrite pop_push;
        split; [done|]; right; split; [done|]; left;
        split; [done|]; by exists w ..].
    unfold bind at 1. unfold scratch.while_, traced at 1. unfold bind at 1.
    fold cond' body'.
    destruct (scratch.loop fuel cond' body' (push [EInit] w1)) as [r1 w2] eqn:Hloop.
    destruct (loop_rounds _ _ _ _ _ Hloop) as (n & tail & Hlog & Hres).
    destruct r1 as [v|e|]; intros [= <- <-]; exists n, tail;
      (split; [exact Hlog|]).
    - destruct Hres as (_ & Htail & Hc). by repeat split.
    - destruct Hres as [Hbody|[Htail [Hc|[Hu|Ht]]]]; [by left| | |];
        (right; split; [done|]); right; [by left | right; by left | right; by right].
    - destruct Hres as [Hbody|[Htail [Hc|[Hu|Ht]]]]; [by left| | |];
        (right; split; [done|]); right; [by left | right; by left | right; by right]. }
  split; [exact Hshape|].
  destruct Hshape as (n & tail & -> & Hres). intros H1.
  destruct n as [|n]; [|discriminate].
  cbn in *. destruct r; [by destruct Hres as (_ & -> & _)|..];
    by destruct Hres as [[-> _] | [-> _]].
Qed.
End CallOrder.

(** ** C6: what [while] does with a condition that is not a function *)

(** The call [scratch.while(true, fn)] fails, but what it throws is the
    string of the source, not an object of the class TypeError. *)
Lemma while_throws_a_string_not_TypeError :
  ∃ e, fst (scratch.while_ 1 (NotFn (VBool true)) (Fn (fun _ => ret VUndefined))
              (World [] tt)) = Throw e
       ∧ e = Thrown (VStr "Remember, you need to pass a FUNCTION to scratch.while!")
       ∧ is_type_error e = false.
Proof. eexists. repeat split. Qed.

(** C6, as the code has it.  When [condition] is not a function, [while]
    throws the reminder string at once: the world is as it was, so
    neither argument has been invoked.  [for] makes no check of its own:
    it runs [init] and then fails in [while] in the same way.  The second
    argument of [while] is not checked: with a condition that is falsy at
    once, a body that is not a function is never called and the call
    returns normally. *)
Theorem while_rejects_non_function {U} (fuel : nat) (v : value)
    (init update fn : func U) (w : world U) :
  scratch.while_ fuel (NotFn v) fn w
  = (Throw (Thrown (VStr scratch.while_message)), w)
  ∧ scratch.for_ fuel init (NotFn v) update fn w
    = match call init [] w with
      | (Ok _, w1) => (Throw (Thrown (VStr scratch.while_message)), w1)
      | (Throw e, w1) => (Throw e, w1)
      | (Timeout, w1) => (Timeout, w1)
      end
  ∧ scratch.while_ (S fuel) (Fn (fun _ => ret (VBool false))) (NotFn v) w
    = (Ok VUndefined, w).
Proof.
  split; [reflexivity|]. split; [|reflexivity].
  unfold scratch.for_, bind. by destruct (call init [] w) as [[x|e|] w1].
Qed.

(** ** Callbacks and the array being traversed *)

(** The callback never changes the length of the array at [a]. *)
Definition keeps_length {U} (f : list value -> M U value) (a : loc) : Prop :=
  ∀ args w, length (elems (snd (f args w)) a) = length (elems w a).

(** The callback never writes to the array at [a]. *)
Definition keeps_array {U} (f : list value -> M U value) (a : loc) : Prop :=
  ∀ args w, heap (snd (f args w)) !! a = heap w !! a.

(** Every call of the callback returns a value: it neither throws nor
    runs for ever. *)
Definition returns_normally {U} (f : list value -> M U value) : Prop :=
  ∀ args w, ∃ v, fst (f args w) = Ok v.

(** One completed call: the arguments, the store when the call was
    made, and the value returned. *)
Record call_record : Type :=
  Call { cr_args : list value; cr_store : list (list value); cr_result : value }.

(** The array at [a] in a recorded store. *)
Definition stored (store : list (list value)) (a : loc) : list value :=
  default [] (store !! a).

Section ForEach.
Context {U : Type}.
Variable F : list value -> M U value.
Variable a : loc.
Hypothesis F_keeps_length : keeps_length F a.

Lemma each_from_traced (n fuel i : nat) (log : list call_record) (w : world U) :
  length (elems w a) = n → i ≤ n → n - i < fuel →
  ∃ r w' new,
    each_from fuel a (traced Call F) i (push log w) = (r, push (log ++ new) w')
    ∧ (∀ k c, new !! k = Some c →
         ∃ x, stored (cr_store c) a !! (i + k) = Some x ∧ cr_args c = [x])
    ∧ (∀ v, r = Ok v → v = VUndefined ∧ length new = n - i)
    ∧ (returns_normally F → r = Ok VUndefined).
Proof.
  revert i log w. induction fuel as [|fuel IH]; intros i log w Hn Hi Hfuel; [lia|].
  cbn [each_from]. rewrite elems_push, Hn.
  destruct (Nat.ltb_spec i n) as [Hlt|Hge].
  - destruct (lookup_lt_is_Some_2 (elems w a) i) as [x Hx]; [lia|].
    unfold bind. rewrite Hx, traced_run.
    change (default VUndefined (Some x)) with x.
    pose proof (F_keeps_length [x] w) as Hlen.
    destruct (F [x] w) as [[v|e|] w1] eqn:HF; cbn [snd] in Hlen.
    + destruct (IH (S i) (log ++ [Call [x] (heap w) v]) w1)
        as (r & w' & new & Hrun & Hcalls & Hok & Hret); [lia ..|].
      exists r, w', (Call [x] (heap w) v :: new).
      rewrite Hrun, <- app_assoc. split; [done|]. split; [|split; [|done]].
      * intros [|k] c Hc.
        -- injection Hc as <-. exists x. by rewrite Nat.add_0_r.
        -- replace (i + S k) with (S i + k) by lia. by apply Hcalls.
      * intros v' Hv'. destruct (Hok v' Hv') as [-> Hnew].
        split; [done | cbn; lia].
    + exists (Throw e), w1, []. rewrite app_nil_r.
      split; [done|]. split; [done|]. split; [done|].
      intros Hret. destruct (Hret [x] w) as [v Hv]. by rewrite HF in Hv.
    + exists Timeout, w1, []. rewrite app_nil_r.
      split; [done|]. split; [done|]. split; [done|].
      intros Hret. destruct (Hret [x] w) as [v Hv]. by rewrite HF in Hv.
  - exists (Ok VUndefined), w, []. rewrite app_nil_r.
    split; [done|]. split; [done|]. split; [|done].
    intros v [= <-]. split; [done | cbn; lia].
Qed.

(** C1. For a callback that keeps the length of the array: the calls of
    the callback that [forEach] has made are, in order, calls on the
    element at index 0, at index 1, and so on, each element as it was at
    the time of its call; when [forEach] returns it returns [undefined],
    after exactly [length] calls; and it does return when every call of
    the callback returns. *)
Theorem forEach_calls_each_index_in_order (fuel : nat) (w : world U) :
  length (elems w a) < fuel →
  let '(r, w') := scratch.forEach fuel a (traced Call F) (push [] w) in
  (∀ i c, log_of w' !! i = Some c →
     ∃ x, stored (cr_store c) a !! i = Some x ∧ cr_args c = [x])
  ∧ (∀ v, r = Ok v → v = VUndefined ∧ length (log_of w') = length (elems w a))
  ∧ (returns_normally F → r = Ok VUndefined).
Proof.
  intros Hfuel. rewrite forEach_each_from.
  destruct (each_from_traced (length (elems w a)) fuel 0 [] w)
    as (r & w' & new & -> & Hcalls & Hok & Hret); [done | lia | lia |].
  cbn [app log_of push user fst]. split; [done|]. split; [|done].
  intros v Hv. destruct (Hok v Hv) as [-> ->]. split; [done | lia].
Qed.
End ForEach.

(** ** C2: [reduce] is a left fold *)



Section Reduce.
Context {U : Type}.
Variable a : loc.




End Reduce.

(** ** [map] and [filter]: folds that append to one array *)

(** What [filter] appends after a call of the predicate. *)
Definition kept (c : call_record) : list value :=
  if truthy (cr_result c) then [arg 0 (cr_args c)] else [].

Lemma concat_singletons {A B} (f : A -> B) (l : list A) :
  concat ((fun c => [f c]) <$> l) = f <$> l.
Proof. induction l as [|c l IH]; [done|]. cbn. by rewrite IH. Qed.

Lemma concat_kept (l : list call_record) :
  concat (kept <$> l)
  = (fun c => arg 0 (cr_args c)) <$> List.filter (fun c => truthy (cr_result c)) l.
Proof.
  induction l as [|c l IH]; [done|]. cbn. unfold kept at 1.
  destruct (truthy (cr_result c)); cbn; by rewrite IH.
Qed.

Lemma new_array_run {U L} (l : L) (w : world U) :
  new_array (push l w)
  = (Ok (VArr (length (heap w))), push l (World (heap w ++ [[]]) (user w))).
Proof. reflexivity. Qed.

(** How an aggregator over the traced callback [F] behaves when it
    appends [step c] to the array at [r] after the call [c] of [F]. *)
Definition appends {U} (F : list value -> M U value) (r : loc)
    (step : call_record -> list value) (agg : func (list call_record * U))
  : Prop :=
  ∀ x log w out,
    heap w !! r = Some out →
    call agg [VArr r; x] (push log w)
    = match F [x] w with
      | (Ok v, w1) =>
          (Ok (VArr r),
           push (log ++ [Call [x] (heap w) v])
             (World (<[r := out ++ step (Call [x] (heap w) v)]> (heap w1))
                (user w1)))
      | (Throw e, w1) => (Throw e, push log w1)
      | (Timeout, w1) => (Timeout, push log w1)
      end.

Section Collect.
Context {U : Type}.
(** [F] is the caller's selector or predicate, [a] the input array and
    [r] the array the aggregator [agg] appends to. *)
Variable F : list value -> M U value.
Variables a r : loc.
Variable step : call_record -> list value.
Variable agg : func (list call_record * U).
Hypothesis a_not_r : a ≠ r.
Hypothesis F_keeps_length : keeps_length F a.
Hypothesis F_keeps_result : keeps_array F r.
Hypothesis agg_appends : appends F r step agg.

Lemma fold_from_collect (n fuel i : nat) (log : list call_record)
    (w : world U) (out : list value) :
  heap w !! r = Some out → length (elems w a) = n → i ≤ n → n - i < fuel →
  ∃ res w' new,
    fold_from fuel a agg i (VArr r) (push log w) = (res, push (log ++ new) w')
    ∧ heap w' !! r = Some (out ++ concat (step <$> new))
    ∧ (∀ k c, new !! k = Some c →
         ∃ x, stored (cr_store c) a !! (i + k) = Some x ∧ cr_args c = [x])
    ∧ (keeps_array F a → heap w' !! a = heap w !! a)
    ∧ (∀ v, res = Ok v → v = VArr r ∧ length new = n - i)
    ∧ (returns_normally F → res = Ok (VArr r)).
Proof.
  revert i log w out.
  induction fuel as [|fuel IH]; intros i log w out Hr Hn Hi Hfuel; [lia|].
  cbn [fold_from]. rewrite elems_push, Hn.
  destruct (Nat.ltb_spec i n) as [Hlt|Hge].
  - destruct (lookup_lt_is_Some_2 (elems w a) i) as [x Hx]; [lia|].
    unfold bind. rewrite Hx. change (default VUndefined (Some x)) with x.
    rewrite (agg_appends x log w out Hr).
    pose proof (F_keeps_length [x] w) as Hlen.
    pose proof (F_keeps_result [x] w) as Hres.
    destruct (F [x] w) as [[v|e|] w1] eqn:HF; cbn [snd] in Hlen, Hres.
    + set (c := Call [x] (heap w) v).
      set (w2 := World (<[r := out ++ step c]> (heap w1)) (user w1)).
      assert (heap w2 !! a = heap w1 !! a) as Ha2
        by (by apply list_lookup_insert_ne).
      destruct (IH (S i) (log ++ [c]) w2 (out ++ step c))
        as (res & w' & new & Hrun & Hout & Hcalls & Hkeep & Hok & Hret);
        [| |lia|lia|].
      { apply list_lookup_insert_eq. apply (lookup_lt_Some _ _ out).
        exact (eq_trans Hres Hr). }
      { unfold elems in *. rewrite Ha2. lia. }
      exists res, w', (c :: new).
      rewrite Hrun, <- app_assoc. split; [done|].
      split; [|split; [|split; [|split; [|done]]]].
      * rewrite Hout. cbn [fmap list_fmap concat]. by rewrite <- app_assoc.
      * intros [|k] c' Hc.
        -- injection Hc as <-. exists x. by rewrite Nat.add_0_r.
        -- replace (i + S k) with (S i + k) by lia. by apply Hcalls.
      * intros HFa. rewrite (Hkeep HFa), Ha2.
        pose proof (HFa [x] w) as Hsame. by rewrite HF in Hsame.
      * intros v' Hv'. destruct (Hok v' Hv') as [-> Hnew].
        split; [done | cbn; lia].
    + exists (Throw e), w1, []. rewrite !app_nil_r.
      split; [done|]. split; [congruence|]. split; [done|].
      split; [|split; [done|]].
      * intros HFa. pose proof (HFa [x] w) as Hsame. by rewrite HF in Hsame.
      * intros Hret. destruct (Hret [x] w) as [v Hv]. by rewrite HF in Hv.
    + exists Timeout, w1, []. rewrite !app_nil_r.
      split; [done|]. split; [congruence|]. split; [done|].
      split; [|split; [done|]].
      * intros HFa. pose proof (HFa [x] w) as Hsame. by rewrite HF in Hsame.
      * intros Hret. destruct (Hret [x] w) as [v Hv]. by rewrite HF in Hv.
  - exists (Ok (VArr r)), w, []. rewrite !app_nil_r.
    split; [done|]. split; [done|]. split; [done|]. split; [done|].
    split; [|done]. intros v [= <-]. split; [done | cbn; lia].
Qed.
End Collect.

Section MapFilter.
Context {U : Type}.
Variable F : list value -> M U value.
Variable r : loc.
Hypothesis F_keeps_result : keeps_array F r.

Lemma map_aggregator_appends :
  appends F r (fun c => [cr_result c]) (scratch.map_aggregator (traced Call F)).
Proof.
  intros x log w out Hr. pose proof (F_keeps_result [x] w) as Hr1.
  cbn [call scratch.map_aggregator]. unfold bind at 1.
  change (arg 0 [VArr r; x]) with (VArr r). change (arg 1 [VArr r; x]) with x.
  cbn [member_base ret]. unfold bind at 1. rewrite traced_run.
  destruct (F [x] w) as [[v|e|] w1]; [|done ..].
  cbn [snd] in Hr1. rewrite Hr in Hr1.
  unfold bind, array_push, ret. cbn [push heap user]. by rewrite Hr1.
Qed.

Lemma filter_aggregator_appends :
  appends F r kept (scratch.filter_aggregator (traced Call F)).
Proof.
  intros x log w out Hr. pose proof (F_keeps_result [x] w) as Hr1.
  cbn [call scratch.filter_aggregator]. unfold bind at 1.
  change (arg 0 [VArr r; x]) with (VArr r). change (arg 1 [VArr r; x]) with x.
  rewrite traced_run.
  destruct (F [x] w) as [[v|e|] w1]; [|done ..].
  cbn [snd] in Hr1. rewrite Hr in Hr1.
  unfold kept. cbn [cr_result cr_args]. change (arg 0 [x]) with x.
  destruct (truthy v).
  - unfold bind, array_push, ret. cbn [member_base ret push heap user].
    by rewrite Hr1.
  - unfold bind, ret. rewrite app_nil_r, list_insert_id by done.
    by destruct w1.
Qed.
End MapFilter.

Section NewArray.
Context {U : Type}.
Variable F : list value -> M U value.
Variable a : loc.
Variable w : world U.
Variable step : call_record -> list value.
Variable agg : func (list call_record * U).
Hypothesis a_allocated : a < length (heap w).
Hypothesis F_keeps_length : keeps_length F a.
Hypothesis F_keeps_result : keeps_array F (length (heap w)).
Hypothesis agg_appends : appends F (length (heap w)) step agg.

(** Allocating the result and folding with an appending aggregator. *)
Lemma collect_into_new_array (fuel : nat) :
  length (elems w a) < fuel →
  let r := length (heap w) in
  let '(res, w') :=
    (let! memo := new_array in scratch.reduce fuel a agg memo) (push [] w) in
  elems w' r = concat (step <$> log_of w')
  ∧ (∀ i c, log_of w' !! i = Some c →
       ∃ x, stored (cr_store c) a !! i = Some x ∧ cr_args c = [x])
  ∧ (keeps_array F a → elems w' a = elems w a)
  ∧ (∀ v, res = Ok v →
       v = VArr r ∧ length (log_of w') = length (elems w a))
  ∧ (returns_normally F → res = Ok (VArr r)).
Proof.
  intros Hfuel. cbv zeta. unfold bind. rewrite new_array_run, reduce_fold_from.
  set (w1 := World (heap w ++ [[]]) (user w)).
  assert (heap w1 !! a = heap w !! a) as Ha
    by (by apply lookup_app_l).
  assert (heap w1 !! length (heap w) = Some []) as Hr
    by (by apply list_lookup_middle).
  destruct (fold_from_collect F a (length (heap w)) step agg ltac:(lia)
              F_keeps_length F_keeps_result agg_appends
              (length (elems w a)) fuel 0 [] w1 [])
    as (res & w' & new & Hrun & Hout & Hcalls & Hkeep & Hok & Hret);
    [done | unfold elems; by rewrite Ha | lia | lia |].
  rewrite Hrun. cbn [app log_of push user fst].
  split; [|split; [done|split; [|split; [|done]]]].
  - unfold elems. cbn [push heap]. by rewrite Hout.
  - intros HFa. unfold elems. cbn [push heap]. by rewrite (Hkeep HFa), Ha.
  - intros v Hv. destruct (Hok v Hv) as [-> ->]. split; [done | lia].
Qed.
End NewArray.

(** ** C3: [map] *)

(** A selector that empties the array it is mapped over:
    [function(x) { S.length = 0; return x; }], with [S] at address 0. *)
Definition truncating_selector : func unit :=
  Fn (fun args w => (Ok (arg 0 args), World (<[0 := []]> (heap w)) (user w))).

(** [scratch.map(S, selector)] with [S = [1, 2]] and that selector
    returns [[1]]: one element, where [S] had two (and has none now). *)
Lemma map_with_truncating_selector :
  run (scratch.map 10 0 truncating_selector) [[VNum 1; VNum 2]]
  = (Ok (VArr 1), [[]; [VNum 1]])
  ∧ length [VNum 1] ≠ length [VNum 1; VNum 2].
Proof. split; [reflexivity | discriminate]. Qed.

(** C3, as the code has it.  For a selector that keeps the length of
    the input array: the array that [map] allocates did not exist
    before; it holds, in order, the values that the selector has
    returned; call number [i] of the selector received the element at
    index [i] of the input as it was then; when the selector never writes
    to the input array, the input array is as it was; when [map] returns,
    it returns the new array, whose length is that of the input; and it
    does return when every call of the selector returns.  (The new array
    is reachable only from the accumulator of [map], which is why the
    selector is taken not to write to it.) *)
Theorem map_collects_selector_results {U} (F : list value -> M U value)
    (a : loc) (fuel : nat) (w : world U) :
  let r := length (heap w) in
  a < length (heap w) →
  keeps_length F a →
  keeps_array F r →
  length (elems w a) < fuel →
  let '(res, w') := scratch.map fuel a (traced Call F) (push [] w) in
  heap w !! r = None
  ∧ elems w' r = cr_result <$> log_of w'
  ∧ (∀ i c, log_of w' !! i = Some c →
       ∃ x, stored (cr_store c) a !! i = Some x ∧ cr_args c = [x])
  ∧ (keeps_array F a → elems w' a = elems w a)
  ∧ (∀ v, res = Ok v →
       v = VArr r ∧ length (elems w' r) = length (elems w a))
  ∧ (returns_normally F → res = Ok (VArr r)).
Proof.
  intros r Ha Hlen Hres Hfuel.
  pose proof (collect_into_new_array F a w (fun c => [cr_result c])
                (scratch.map_aggregator (traced Call F)) Ha Hlen Hres
                (map_aggregator_appends F r Hres) fuel Hfuel) as H.
  cbv zeta in H. unfold scratch.map.
  destruct (bind new_array _ _) as [res w'].
  destruct H as (Hout & Hcalls & Hkeep & Hok & Hret).
  rewrite concat_singletons in Hout.
  split; [by apply lookup_ge_None_2|]. split; [done|]. split; [done|].
  split; [done|]. split; [|done].
  intros v Hv. destruct (Hok v Hv) as [-> Hlog].
  split; [done|]. subst r. by rewrite Hout, length_fmap.
Qed.

(** ** C4: [filter] *)

(** A predicate that lengthens and later empties the array it filters:
    [function(x) { if (x === 1) { S.push(8, 9); } if (x === 9) { S.length = 0; }
    return true; }], with [S] at address 0. *)
Definition resizing_predicate : func unit :=
  Fn (fun args w =>
        (Ok (VBool true),
         match arg 0 args with
         | VNum 1 => World (<[0 := elems w 0 ++ [VNum 8; VNum 9]]> (heap w)) (user w)
         | VNum 9 => World (<[0 := []]> (heap w)) (user w)
         | _ => w
         end)).

(** [scratch.filter(S, predicate)] with [S = [1]] and that predicate
    returns [[1, 8, 9]]: three elements, where [S] had one when the call
    was made and has none when it returns. *)
Lemma filter_with_resizing_predicate :
  run (scratch.filter 10 0 resizing_predicate) [[VNum 1]]
  = (Ok (VArr 1), [[]; [VNum 1; VNum 8; VNum 9]])
  ∧ ¬ (length [VNum 1; VNum 8; VNum 9] ≤ length [VNum 1])
  ∧ ¬ (length [VNum 1; VNum 8; VNum 9] ≤ length (@nil value)).
Proof. split; [reflexivity | cbn; lia]. Qed.

(** C4, as the code has it.  For a predicate that keeps the length of
    the input array: the array that [filter] allocates did not exist
    before; it holds, in the order of the calls, the arguments of exactly
    those calls of the predicate that returned a truthy value; call
    number [i] received the element at index [i] of the input as it was
    then; when the predicate never writes to the input array, the input
    array is as it was; when [filter] returns, it returns the new array,
    which is no longer than the input; and it does return when every
    call of the predicate returns. *)
Theorem filter_keeps_accepted_elements {U} (F : list value -> M U value)
    (a : loc) (fuel : nat) (w : world U) :
  let r := length (heap w) in
  a < length (heap w) →
  keeps_length F a →
  keeps_array F r →
  length (elems w a) < fuel →
  let '(res, w') := scratch.filter fuel a (traced Call F) (push [] w) in
  heap w !! r = None
  ∧ elems w' r
    = (fun c => arg 0 (cr_args c))
        <$> List.filter (fun c => truthy (cr_result c)) (log_of w')
  ∧ (∀ i c, log_of w' !! i = Some c →
       ∃ x, stored (cr_store c) a !! i = Some x ∧ cr_args c = [x])
  ∧ (keeps_array F a → elems w' a = elems w a)
  ∧ (∀ v, res = Ok v →
       v = VArr r
       ∧ length (log_of w') = length (elems w a)
       ∧ length (elems w' r) ≤ length (elems w a))
  ∧ (returns_normally F → res = Ok (VArr r)).
Proof.
  intros r Ha Hlen Hres Hfuel.
  pose proof (collect_into_new_array F a w kept
                (scratch.filter_aggregator (traced Call F)) Ha Hlen Hres
                (filter_aggregator_appends F r Hres) fuel Hfuel) as H.
  cbv zeta in H. unfold scratch.filter.
  destruct (bind new_array _ _) as [res w'].
  destruct H as (Hout & Hcalls & Hkeep & Hok & Hret).
  rewrite concat_kept in Hout.
  split; [by apply lookup_ge_None_2|]. split; [done|]. split; [done|].
  split; [done|]. split; [|done].
  intros v Hv. destruct (Hok v Hv) as [-> Hlog].
  split; [done|]. split; [done|]. subst r.
  rewrite Hout, length_fmap, <- Hlog. apply List.filter_length_le.
Qed.

(** ** Callbacks that only read *)

(** A selector whose result depends on its argument and the store only
    and which has no effect, and the special case of a function of the
    argument alone. *)
Definition reader {U} (g : list (list value) -> value -> res value) : func U :=
  Fn (fun args w => (g (heap w) (arg 0 args), w)).

Definition pure_fn {U} (f : value -> value) : func U :=
  Fn (fun args => ret (f (arg 0 args))).

(** The results of [g] on the elements in order, up to the first that
    fails, and how that went. *)
Fixpoint collect (g : value -> res value) (es : list value)
  : list value * res unit :=
  match es with
  | [] => ([], Ok tt)
  | e :: es' =>
      match g e with
      | Ok v => let '(vs, s) := collect g es' in (v :: vs, s)
      | Throw x => ([], Throw x)
      | Timeout => ([], Timeout)
      end
  end.

Definition finish (r : loc) (s : res unit) : res value :=
  match s with
  | Ok _ => Ok (VArr r)
  | Throw e => Throw e
  | Timeout => Timeout
  end.

Lemma collect_pure (f : value -> value) (es : list value) :
  collect (fun x => Ok (f x)) es = (f <$> es, Ok tt).
Proof. induction es as [|e es IH]; [done|]. cbn. by rewrite IH. Qed.

Lemma insert_last {A} (h : list A) (x y : A) :
  <[length h := y]> (h ++ [x]) = h ++ [y].
Proof. rewrite insert_app_r_alt by lia. by rewrite Nat.sub_diag. Qed.

Section Readers.
Context {U : Type}.
Variable h : list (list value).
Variable a : loc.
Variable u : U.
Hypothesis a_allocated : a < length h.
Let es : list value := default [] (h !! a).
Let r : loc := length h.

Lemma elems_extended (out : list value) : elems (World (h ++ [out]) u) a = es.
Proof. unfold elems, es. cbn [heap]. by rewrite lookup_app_l. Qed.

Lemma push_extended (out : list value) (v : value) :
  array_push (VArr r) v (World (h ++ [out]) u)
  = (Ok (VNum (Z.of_nat (S (length out)))), World (h ++ [out ++ [v]]) u).
Proof.
  unfold array_push, r. cbn [heap user].
  by rewrite list_lookup_middle, insert_last.
Qed.

Lemma fold_from_map_reader (g : list (list value) -> value -> res value)
    (fuel i : nat) (out : list value) :
  (∀ out x, x ∈ es → g (h ++ [out]) x = g h x) →
  length es - i < fuel →
  fold_from fuel a (scratch.map_aggregator (reader g)) i (VArr r)
    (World (h ++ [out]) u)
  = (finish r (snd (collect (g h) (drop i es))),
     World (h ++ [out ++ fst (collect (g h) (drop i es))]) u).
Proof.
  intros Hstable. revert i out.
  induction fuel as [|fuel IH]; intros i out Hfuel; [lia|].
  cbn [fold_from]. rewrite elems_extended.
  destruct (Nat.ltb_spec i (length es)) as [Hlt|Hge].
  - destruct (lookup_lt_is_Some_2 es i) as [x Hx]; [lia|].
    rewrite (drop_S _ _ _ Hx). unfold bind at 1. rewrite Hx.
    change (default VUndefined (Some x)) with x.
    cbn [call scratch.map_aggregator collect]. unfold bind at 1.
    change (arg 0 [VArr r; x]) with (VArr r). change (arg 1 [VArr r; x]) with x.
    cbn [member_base ret]. unfold bind at 1. cbn [call reader heap].
    change (arg 0 [x]) with x.
    rewrite Hstable by (by eapply list_elem_of_lookup_2).
    destruct (g h x) as [v|e|]; cbn [fst snd finish];
      [|by rewrite app_nil_r ..].
    unfold bind at 1. rewrite push_extended. cbn [ret].
    rewrite IH by lia.
    destruct (collect (g h) (drop (S i) es)) as [vs s]; cbn [fst snd].
    by rewrite <- app_assoc.
  - rewrite drop_ge by lia. cbn. by rewrite app_nil_r.
Qed.

Lemma filter_aggregator_pure_run (p : value -> value) (x : value)
    (out : list value) :
  call (scratch.filter_aggregator (pure_fn p)) [VArr r; x]
    (World (h ++ [out]) u)
  = (Ok (VArr r),
     World (h ++ [out ++ List.filter (fun x => truthy (p x)) [x]]) u).
Proof.
  cbn [call scratch.filter_aggregator List.filter]. unfold bind at 1.
  change (arg 0 [VArr r; x]) with (VArr r). change (arg 1 [VArr r; x]) with x.
  cbn [call pure_fn ret]. change (arg 0 [x]) with x.
  destruct (truthy (p x)).
  - unfold bind. cbn [member_base ret]. by rewrite push_extended.
  - unfold bind. cbn [ret]. by rewrite app_nil_r.
Qed.

Lemma fold_from_filter_pure (p : value -> value) (fuel i : nat)
    (out : list value) :
  length es - i < fuel →
  fold_from fuel a (scratch.filter_aggregator (pure_fn p)) i (VArr r)
    (World (h ++ [out]) u)
  = (Ok (VArr r),
     World (h ++ [out ++ List.filter (fun x => truthy (p x)) (drop i es)]) u).
Proof.
  revert i out.
  induction fuel as [|fuel IH]; intros i out Hfuel; [lia|].
  cbn [fold_from]. rewrite elems_extended.
  destruct (Nat.ltb_spec i (length es)) as [Hlt|Hge].
  - destruct (lookup_lt_is_Some_2 es i) as [x Hx]; [lia|].
    rewrite (drop_S _ _ _ Hx). unfold bind at 1. rewrite Hx.
    change (default VUndefined (Some x)) with x.
    rewrite filter_aggregator_pure_run, IH by lia.
    rewrite <- app_assoc. do 3 f_equal.
    change (x :: drop (S i) es) with ([x] ++ drop (S i) es).
    by rewrite List.filter_app.
  - rewrite drop_ge by lia. cbn. by rewrite app_nil_r.
Qed.
End Readers.

Section ReadersRun.
Context {U : Type}.
Variable a : loc.
Variable w : world U.
Hypothesis a_allocated : a < length (heap w).

Lemma map_reader (g : list (list value) -> value -> res value) (fuel : nat) :
  (∀ out x, x ∈ elems w a → g (heap w ++ [out]) x = g (heap w) x) →
  length (elems w a) < fuel →
  scratch.map fuel a (reader g) w
  = (finish (length (heap w)) (snd (collect (g (heap w)) (elems w a))),
     World (heap w ++ [fst (collect (g (heap w)) (elems w a))]) (user w)).
Proof.
  intros Hstable Hfuel. unfold scratch.map, bind, new_array.
  rewrite reduce_fold_from.
  rewrite (fold_from_map_reader (heap w) a (user w) a_allocated g fuel 0 [])
    by (done || (fold (elems w a); lia)).
  by rewrite drop_0.
Qed.

Lemma map_pure (f : value -> value) (fuel : nat) :
  length (elems w a) < fuel →
  scratch.map fuel a (pure_fn f) w
  = (Ok (VArr (length (heap w))),
     World (heap w ++ [f <$> elems w a]) (user w)).
Proof.
  intros Hfuel.
  change (@pure_fn U f) with (@reader U (fun _ x => Ok (f x))).
  rewrite map_reader by done. by rewrite collect_pure.
Qed.

Lemma filter_pure (p : value -> value) (fuel : nat) :
  length (elems w a) < fuel →
  scratch.filter fuel a (pure_fn p) w
  = (Ok (VArr (length (heap w))),
     World (heap w ++ [List.filter (fun x => truthy (p x)) (elems w a)])
       (user w)).
Proof.
  intros Hfuel. unfold scratch.filter, bind, new_array.
  rewrite reduce_fold_from.
  rewrite (fold_from_filter_pure (heap w) a (user w) a_allocated p fuel 0 [])
    by (fold (elems w a); lia).
  by rewrite drop_0.
Qed.
End ReadersRun.

(** ** C5: [compact] *)

Lemma compact_filters {U} (a : loc) (fuel : nat) (w : world U) :
  a < length (heap w) →
  length (elems w a) < fuel →
  scratch.compact fuel a w
  = (Ok (VArr (length (heap w))),
     World (heap w ++ [List.filter not_nullish (elems w a)]) (user w)).
Proof.
  intros Ha Hfuel.
  apply (filter_pure a w Ha (fun v => VBool (not_nullish v)) fuel Hfuel).
Qed.

(** C5. [compact] returns a new array that holds, in their order, the
    elements of the input that are neither [null] nor [undefined]; every
    other value, falsy or not, is kept; the input array is left as it
    was. *)
Theorem compact_removes_null_and_undefined {U} (a : loc) (fuel : nat)
    (w : world U) :
  a < length (heap w) →
  length (elems w a) < fuel →
  scratch.compact fuel a w
  = (Ok (VArr (length (heap w))),
     World (heap w ++ [List.filter not_nullish (elems w a)]) (user w))
  ∧ (∀ v, not_nullish v = false ↔ v = VNull ∨ v = VUndefined).
Proof.
  intros Ha Hfuel. split.
  - by apply compact_filters.
  - intros v. split; [|by intros [-> | ->]].
    destruct v; try discriminate; auto.
Qed.

(** [compact([0, null, 1, undefined, false, 2])] is [[0, 1, false, 2]]. *)
Lemma compact_example :
  scratch.compact 7 0
    (World [[VNum 0; VNull; VNum 1; VUndefined; VBool false; VNum 2]] tt)
  = (Ok (VArr 1),
     World [[VNum 0; VNull; VNum 1; VUndefined; VBool false; VNum 2];
            [VNum 0; VNum 1; VBool false; VNum 2]] tt).
Proof.
  exact (proj1 (compact_removes_null_and_undefined 0 7
                  (World [[VNum 0; VNull; VNum 1; VUndefined; VBool false; VNum 2]] tt)
                  ltac:(cbn; lia) ltac:(cbn; lia))).
Defined.

(** ** C8: [pluck] *)

(** Every array among the elements is one that has been allocated. *)
Definition refs_allocated (store : list (list value)) (es : list value) : Prop :=
  ∀ l, VArr l ∈ es → l < length store.

(** The named property of each element in order, up to the first element
    on which the access fails, and the error of that access. *)
Definition pluck_spec (store : list (list value)) (es : list value)
    (property : string) : list value * res unit :=
  collect (fun element => property_of store element property) es.

Lemma property_of_extended (store : list (list value)) (es out : list value)
    (property : string) (x : value) :
  refs_allocated store es → x ∈ es →
  property_of (store ++ [out]) x property = property_of store x property.
Proof.
  intros Hrefs Hx. destruct x as [| | | | | |l]; try reflexivity.
  cbn [property_of]. by rewrite lookup_app_l by (by apply Hrefs).
Qed.

Lemma pluck_collects {U} (a : loc) (property : string) (fuel : nat)
    (w : world U) :
  a < length (heap w) →
  refs_allocated (heap w) (elems w a) →
  length (elems w a) < fuel →
  scratch.pluck fuel a property w
  = (finish (length (heap w)) (snd (pluck_spec (heap w) (elems w a) property)),
     World (heap w ++ [fst (pluck_spec (heap w) (elems w a) property)])
       (user w)).
Proof.
  intros Ha Hrefs Hfuel.
  apply (map_reader a w Ha (fun store x => property_of store x property) fuel);
    [|done].
  intros out x Hx. by eapply property_of_extended.
Qed.

(** C8. [pluck] is [map] with the selector that reads the property; it
    returns a new array with the named property of each element, in
    order; and when the access fails on an element, the call fails with
    the error of that access. *)
Theorem pluck_maps_property_access {U} (a : loc) (property : string)
    (fuel : nat) (w : world U) :
  scratch.pluck fuel a property w
  = scratch.map fuel a (Fn (fun args => get_property (arg 0 args) property)) w
  ∧ (a < length (heap w) →
     refs_allocated (heap w) (elems w a) →
     length (elems w a) < fuel →
     scratch.pluck fuel a property w
     = (finish (length (heap w)) (snd (pluck_spec (heap w) (elems w a) property)),
        World (heap w ++ [fst (pluck_spec (heap w) (elems w a) property)])
          (user w))).
Proof.
  split; [reflexivity|]. apply pluck_collects.
Qed.

Example pluck_fails_on_null :
  run (scratch.pluck 10 0 "a") [[VObj [("a", VNum 1)]; VNull; VObj [("a", VNum 2)]]]
  = (Throw (TypeError "cannot read properties of null or undefined"),
     [[VObj [("a", VNum 1)]; VNull; VObj [("a", VNum 2)]]; [VNum 1]]).
Proof. reflexivity. Qed.

(** ** C9: calling twice *)

(** Two calls in a row: the second starts in the world the first left. *)
Definition twice {U A} (m : M U A) (w : world U) : (res A * res A) * world U :=
  let '(r1, w1) := m w in
  let '(r2, w2) := m w1 in
  ((r1, r2), w2).

(** A selector that counts its calls in a captured variable:
    [function(x) { return n++; }]. *)
Definition counting_selector : func nat :=
  Fn (fun _ w => (Ok (VNum (Z.of_nat (user w))), World (heap w) (S (user w)))).

(** With [n = 0] at first, [scratch.map([7], selector)] returns [[0]]
    and the same call made again returns [[1]]. *)
Lemma map_twice_with_counting_selector :
  twice (scratch.map 10 0 counting_selector) (World [[VNum 7]] 0)
  = ((Ok (VArr 1), Ok (VArr 2)), World [[VNum 7]; [VNum 0]; [VNum 1]] 2)
  ∧ [VNum 0] ≠ [VNum 1].
Proof. split; [reflexivity | discriminate]. Qed.

Lemma twice_extends {U} (m : M U value) (w : world U) (out : list value)
    (s : res unit) :
  let r := length (heap w) in
  m w = (finish r s, World (heap w ++ [out]) (user w)) →
  m (World (heap w ++ [out]) (user w))
  = (finish (S r) s, World ((heap w ++ [out]) ++ [out]) (user w)) →
  twice m w
  = ((finish r s, finish (S r) s), World (heap w ++ [out; out]) (user w)).
Proof.
  intros r H1 H2. unfold twice. rewrite H1, H2. by rewrite <- app_assoc.
Qed.

(** C9, as the code has it.  With a selector or predicate that is a
    function of its argument and has no effect, two calls of [map] or of
    [filter] in a row on the same array return two different new arrays
    with the same elements, and leave every array that existed before as
    it was; so do two calls of [compact], and two calls of [pluck] (which
    fail alike when the property access fails on an element). *)
Theorem twice_yields_equal_outputs {U} (a : loc) (fuel : nat) (w : world U) :
  let r := length (heap w) in
  a < length (heap w) →
  length (elems w a) < fuel →
  (∀ f, ∃ out,
     twice (scratch.map fuel a (pure_fn f)) w
     = ((Ok (VArr r), Ok (VArr (S r))), World (heap w ++ [out; out]) (user w)))
  ∧ (∀ p, ∃ out,
       twice (scratch.filter fuel a (pure_fn p)) w
       = ((Ok (VArr r), Ok (VArr (S r))), World (heap w ++ [out; out]) (user w)))
  ∧ (∃ out,
       twice (scratch.compact fuel a) w
       = ((Ok (VArr r), Ok (VArr (S r))), World (heap w ++ [out; out]) (user w)))
  ∧ (∀ property,
       refs_allocated (heap w) (elems w a) →
       ∃ out s,
         twice (scratch.pluck fuel a property) w
         = ((finish r s, finish (S r) s), World (heap w ++ [out; out]) (user w))).
Proof.
  intros r Ha Hfuel.
  assert (∀ out, a < length (heap (World (heap w ++ [out]) (user w)))) as Ha'.
  { intros out. cbn [heap]. rewrite length_app. lia. }
  assert (∀ out, elems (World (heap w ++ [out]) (user w)) a = elems w a) as Hes.
  { intros out. unfold elems. cbn [heap]. by rewrite lookup_app_l. }
  assert (∀ out, length (heap w ++ [out]) = S r) as Hr.
  { intros out. rewrite length_app. cbn. unfold r. lia. }
  repeat split.
  - intros f. exists (f <$> elems w a).
    apply (twice_extends _ w _ (Ok tt)); [by apply map_pure|].
    rewrite (map_pure a _ (Ha' _)) by (by rewrite Hes).
    cbn [heap user]. by rewrite Hes, Hr.
  - intros p. exists (List.filter (fun x => truthy (p x)) (elems w a)).
    apply (twice_extends _ w _ (Ok tt)); [by apply filter_pure|].
    rewrite (filter_pure a _ (Ha' _)) by (by rewrite Hes).
    cbn [heap user]. by rewrite Hes, Hr.
  - exists (List.filter not_nullish (elems w a)).
    apply (twice_extends _ w _ (Ok tt)); [by apply compact_filters|].
    rewrite (compact_filters a fuel _ (Ha' _)) by (by rewrite Hes).
    cbn [heap user]. by rewrite Hes, Hr.
  - intros property Hrefs.
    set (out := fst (pluck_spec (heap w) (elems w a) property)).
    exists out, (snd (pluck_spec (heap w) (elems w a) property)).
    apply twice_extends; [by apply pluck_collects|].
    assert (refs_allocated (heap (World (heap w ++ [out]) (user w)))
              (elems (World (heap w ++ [out]) (user w)) a)) as Hrefs'.
    { rewrite Hes. intros l Hl. cbn [heap]. rewrite length_app.
      specialize (Hrefs l Hl). lia. }
    rewrite (pluck_collects a property fuel _ (Ha' _) Hrefs')
      by (by rewrite Hes).
    cbn [heap user]. rewrite Hes, Hr.
    assert (pluck_spec (heap w ++ [out]) (elems w a) property
            = pluck_spec (heap w) (elems w a) property) as ->; [|done].
    unfold pluck_spec.
    assert (∀ es, (∀ x, x ∈ es → x ∈ elems w a) →
              collect (fun e => property_of (heap w ++ [out]) e property) es
              = collect (fun e => property_of (heap w) e property) es) as Hc.
    { induction es as [|e es IH]; intros Hsub; [done|]. cbn [collect].
      rewrite (property_of_extended _ (elems w a)), IH; try done.
      - intros x Hx. apply Hsub, elem_of_cons. by right.
      - apply Hsub, elem_of_cons. by left. }
    by apply Hc.
Qed.

(** ** C10: the accumulator *)

(** The accumulators in a log of aggregator calls are threaded: each
    call receives what the previous one returned, the first receives
    [m]. *)
Fixpoint chain (m : value) (log : list call_record) : Prop :=
  match log with
  | [] => True
  | c :: log' => arg 0 (cr_args c) = m ∧ chain (cr_result c) log'
  end.

(** What the last call returned, or [m] when there was none. *)
Definition last_result (m : value) (log : list call_record) : value :=
  fold_left (fun _ c => cr_result c) log m.

(** The [reduce] call that [scratch.map([1, 2], double)] makes, once the
    result array has been allocated at address 1.  On both steps the
    accumulator passed to the aggregator and the value it returns are
    the same reference, and the array behind it has changed in between:
    it is [[]] at the first call, [[2]] at the second and [[2, 4]] at
    the end. *)
Lemma map_accumulator_is_mutated_in_place :
  scratch.reduce 10 0
    (traced Call (call (scratch.map_aggregator double))) (VArr 1)
    (push [] (World [[VNum 1; VNum 2]; []] tt))
  = (Ok (VArr 1),
     push [Call [VArr 1; VNum 1] [[VNum 1; VNum 2]; []] (VArr 1);
           Call [VArr 1; VNum 2] [[VNum 1; VNum 2]; [VNum 2]] (VArr 1)]
       (World [[VNum 1; VNum 2]; [VNum 2; VNum 4]] tt))
  ∧ run (scratch.map 10 0 double) [[VNum 1; VNum 2]]
    = (Ok (VArr 1), [[VNum 1; VNum 2]; [VNum 2; VNum 4]]).
Proof. split; reflexivity. Qed.

(** The world [w'] is [w] with [x] appended to the array at [l] and
    nothing else changed. *)
Definition appended_in_place {U} (l : loc) (x : value) (w w' : world U) : Prop :=
  ∃ es, heap w !! l = Some es
        ∧ w' = World (<[l := es ++ [x]]> (heap w)) (user w).

(** What [map] and [filter] do, allocating the result and calling
    [reduce], with the calls of their aggregator logged. *)
Definition observed_aggregation {U} (fuel : nat) (a : loc) (agg : func U)
    (w : world U) : res value * world (list call_record * U) :=
  (let! memo := new_array in
   scratch.reduce fuel a (traced Call (call agg)) memo) (push [] w).

Section Accumulator.
Context {U : Type}.

Lemma fold_from_chain (a : loc) (agg : list value -> M U value)
    (fuel i : nat) (m : value) (log : list call_record) (w : world U) r w' :
  fold_from fuel a (traced Call agg) i m (push log w) = (r, w') →
  ∃ new, log_of w' = log ++ new
         ∧ chain m new
         ∧ ∀ v, r = Ok v → v = last_result m new.
Proof.
  revert i m log w. induction fuel as [|fuel IH]; intros i m log w.
  - intros [= <- <-]. exists []. cbn. by rewrite app_nil_r.
  - cbn [fold_from]. destruct (i <? _).
    + unfold bind. rewrite traced_run.
      destruct (agg _ w) as [[m1|e|] w1];
        [|intros [= <- <-]; exists []; cbn; by rewrite app_nil_r ..].
      intros Hrest. destruct (IH _ _ _ _ Hrest) as (new & Hlog & Hchain & Hlast).
      eexists (_ :: new). rewrite Hlog, <- app_assoc. by repeat split.
    + intros [= <- <-]. exists []. cbn. rewrite app_nil_r.
      repeat split. by intros v [= <-].
Qed.

Lemma fold_from_same_accumulator (a : loc) (agg : list value -> M U value)
    (fuel i : nat) (m : value) (log : list call_record) (w : world U) r w' :
  (∀ args w0 v w1, agg args w0 = (Ok v, w1) → v = arg 0 args) →
  fold_from fuel a (traced Call agg) i m (push log w) = (r, w') →
  ∃ new, log_of w' = log ++ new
         ∧ Forall (fun c => arg 0 (cr_args c) = m ∧ cr_result c = m) new.
Proof.
  intros Hagg. revert i log w. induction fuel as [|fuel IH]; intros i log w.
  - intros [= <- <-]. exists []. cbn. by rewrite app_nil_r.
  - cbn [fold_from]. destruct (i <? _).
    + unfold bind. rewrite traced_run.
      destruct (agg _ w) as [[m1|e|] w1] eqn:Hcall;
        [|intros [= <- <-]; exists []; cbn; by rewrite app_nil_r ..].
      pose proof (Hagg _ _ _ _ Hcall) as Hm1. change (m1 = m) in Hm1. subst m1.
      intros Hrest. destruct (IH _ _ _ Hrest) as (new & Hlog & Hall).
      eexists (_ :: new). rewrite Hlog, <- app_assoc. split; [done|].
      by constructor.
    + intros [= <- <-]. exists []. cbn. by rewrite app_nil_r.
Qed.

Lemma array_push_run (l : loc) (x : value) (w : world U) :
  array_push (VArr l) x w
  = match heap w !! l with
    | Some es =>
        (Ok (VNum (Z.of_nat (S (length es)))),
         World (<[l := es ++ [x]]> (heap w)) (user w))
    | None => (Throw (TypeError "push is not a function"), w)
    end.
Proof. reflexivity. Qed.

Lemma array_push_appends (result x v : value) (w w' : world U) :
  array_push result x w = (Ok v, w') →
  ∃ l, result = VArr l ∧ appended_in_place l x w w'.
Proof.
  unfold array_push. destruct result as [| | | | | |l]; try discriminate.
  destruct (heap w !! l) as [es|] eqn:Hl; [|discriminate].
  intros [= _ <-]. exists l. split; [done|]. by exists es.
Qed.

Lemma map_aggregator_appends_in_place (selector : func U) args
    (w w' : world U) (v : value) :
  call (scratch.map_aggregator selector) args w = (Ok v, w') →
  v = arg 0 args
  ∧ ∃ l x w1,
      v = VArr l
      ∧ call selector [arg 1 args] w = (Ok x, w1)
      ∧ appended_in_place l x w1 w'.
Proof.
  cbn [call scratch.map_aggregator]. unfold bind at 1.
  destruct (arg 0 args) as [| | | | | |l] eqn:Hresult;
    cbn [member_base throw ret]; try discriminate.
  - unfold bind.
    destruct (call selector _ w) as [[x|e|] w1]; discriminate.
  - unfold bind.
    destruct (call selector _ w) as [[x|e|] w1]; discriminate.
  - unfold bind.
    destruct (call selector _ w) as [[x|e|] w1]; discriminate.
  - unfold bind.
    destruct (call selector _ w) as [[x|e|] w1]; discriminate.
  - unfold bind at 1.
    destruct (call selector _ w) as [[x|e|] w1] eqn:Hsel; [|discriminate ..].
    unfold bind. rewrite array_push_run.
    destruct (heap w1 !! l) as [es|] eqn:Hl; [|discriminate].
    intros [= <- <-]. split; [done|]. exists l, x, w1.
    split; [done|]. split; [done|]. by exists es.
Qed.

Lemma map_aggregator_does_append (selector : func U) (l : loc)
    (element x : value) (es : list value) (w w1 : world U) :
  call selector [element] w = (Ok x, w1) →
  heap w1 !! l = Some es →
  call (scratch.map_aggregator selector) [VArr l; element] w
  = (Ok (VArr l), World (<[l := es ++ [x]]> (heap w1)) (user w1)).
Proof.
  intros Hsel Hl. cbn [call scratch.map_aggregator]. unfold bind at 1.
  change (arg 0 [VArr l; element]) with (VArr l).
  change (arg 1 [VArr l; element]) with element.
  cbn [member_base ret]. unfold bind at 1. rewrite Hsel.
  unfold bind. by rewrite array_push_run, Hl.
Qed.

Lemma filter_aggregator_appends_in_place (predicate : func U) args
    (w w' : world U) (v : value) :
  call (scratch.filter_aggregator predicate) args w = (Ok v, w') →
  v = arg 0 args
  ∧ ∃ p w1,
      call predicate [arg 1 args] w = (Ok p, w1)
      ∧ if truthy p
        then ∃ l, v = VArr l ∧ appended_in_place l (arg 1 args) w1 w'
        else w' = w1.
Proof.
  cbn [call scratch.filter_aggregator]. unfold bind at 1.
  destruct (call predicate _ w) as [[p|e|] w1] eqn:Hp; [|discriminate ..].
  destruct (truthy p) eqn:Ht; unfold bind, ret.
  - destruct (member_base _ w1) as [[[]|e|] w2] eqn:Hbase; [|discriminate ..].
    assert (w2 = w1) as ->.
    { revert Hbase. by destruct (arg 0 args); intros [= <-]. }
    destruct (array_push _ _ w1) as [[n|e|] w3] eqn:Hpush; [|discriminate ..].
    intros [= <- <-]. split; [done|]. exists p, w1. split; [done|].
    destruct (array_push_appends _ _ _ _ _ Hpush) as (l & Hl & Happ).
    rewrite Ht. exists l. by split.
  - intros [= <- <-]. split; [done|]. exists p, w1. by rewrite Ht.
Qed.

Lemma filter_aggregator_does_append (predicate : func U) (l : loc)
    (element p : value) (es : list value) (w w1 : world U) :
  call predicate [element] w = (Ok p, w1) →
  heap w1 !! l = Some es →
  call (scratch.filter_aggregator predicate) [VArr l; element] w
  = (Ok (VArr l),
     if truthy p
     then World (<[l := es ++ [element]]> (heap w1)) (user w1)
     else w1).
Proof.
  intros Hp Hl. cbn [call scratch.filter_aggregator]. unfold bind at 1.
  change (arg 0 [VArr l; element]) with (VArr l).
  change (arg 1 [VArr l; element]) with element.
  rewrite Hp. destruct (truthy p); unfold bind, ret; [|done].
  cbn [member_base ret]. by rewrite array_push_run, Hl.
Qed.

Lemma observed_aggregation_same_accumulator (a : loc) (agg : func U)
    (fuel : nat) (w : world U) :
  (∀ args w0 v w1, call agg args w0 = (Ok v, w1) → v = arg 0 args) →
  let run := observed_aggregation fuel a agg w in
  leave run
  = (let! memo := new_array in scratch.reduce fuel a agg memo) w
  ∧ Forall (fun c => arg 0 (cr_args c) = VArr (length (heap w))
                     ∧ cr_result c = VArr (length (heap w)))
      (log_of (snd run)).
Proof.
  intros Hagg run. split.
  - apply (covers_bind new_array new_array _ _ covers_new_array).
    intros memo l w0. rewrite !reduce_fold_from.
    apply covers_fold_from. intros args. apply (covers_traced Call (call agg)).
  - subst run. unfold observed_aggregation, bind. rewrite new_array_run.
    destruct (scratch.reduce fuel a _ _ _) as [r w'] eqn:Hrun.
    rewrite reduce_fold_from in Hrun.
    destruct (fold_from_same_accumulator _ _ _ _ _ _ _ _ _ Hagg Hrun)
      as (new & Hlog & Hall).
    cbn [snd app] in *. by rewrite Hlog.
Qed.

(** C10, as the code has it.  In every [reduce] call the variable
    [memo] is assigned what the aggregator returns: the first call of
    the aggregator receives the initial accumulator, each later call
    what the call before returned, and [reduce] returns what the last
    call returned.  The aggregators of [map] and [filter] return the
    accumulator they were given, having appended to that array in
    place: when the aggregator of [map] returns, it returns its first
    argument, a reference to an array, and the world is the one the
    selector left with the selector's result appended to that array and
    nothing else changed, and it does so whenever the selector returns
    and the accumulator is an array; the aggregator of [filter] does the
    same with the element itself when the predicate's result is truthy,
    and changes nothing when it is falsy.  So in the [reduce] calls that
    [map] and [filter] make, the accumulator of every step, going in and
    coming out, is the one reference to the array allocated at the
    start. *)
Theorem accumulator_is_reassigned_and_shared :
  (∀ (a : loc) (agg : list value -> M U value) (fuel : nat) (m0 : value)
     (w : world U),
     let '(r, w') :=
       scratch.reduce fuel a (traced Call agg) m0 (push [] w) in
     chain m0 (log_of w') ∧ ∀ v, r = Ok v → v = last_result m0 (log_of w'))
  ∧ (∀ (selector : func U) args (w w' : world U) (v : value),
       call (scratch.map_aggregator selector) args w = (Ok v, w') →
       v = arg 0 args
       ∧ ∃ l x w1,
           v = VArr l
           ∧ call selector [arg 1 args] w = (Ok x, w1)
           ∧ appended_in_place l x w1 w')
  ∧ (∀ (selector : func U) (l : loc) (element x : value) (es : list value)
       (w w1 : world U),
       call selector [element] w = (Ok x, w1) →
       heap w1 !! l = Some es →
       call (scratch.map_aggregator selector) [VArr l; element] w
       = (Ok (VArr l), World (<[l := es ++ [x]]> (heap w1)) (user w1)))
  ∧ (∀ (predicate : func U) args (w w' : world U) (v : value),
       call (scratch.filter_aggregator predicate) args w = (Ok v, w') →
       v = arg 0 args
       ∧ ∃ p w1,
           call predicate [arg 1 args] w = (Ok p, w1)
           ∧ if truthy p
             then ∃ l, v = VArr l ∧ appended_in_place l (arg 1 args) w1 w'
             else w' = w1)
  ∧ (∀ (predicate : func U) (l : loc) (element p : value) (es : list value)
       (w w1 : world U),
       call predicate [element] w = (Ok p, w1) →
       heap w1 !! l = Some es →
       call (scratch.filter_aggregator predicate) [VArr l; element] w
       = (Ok (VArr l),
          if truthy p
          then World (<[l := es ++ [element]]> (heap w1)) (user w1)
          else w1))
  ∧ (∀ (a : loc) (selector : func U) (fuel : nat) (w : world U),
       let run :=
         observed_aggregation fuel a (scratch.map_aggregator selector) w in
       leave run = scratch.map fuel a selector w
       ∧ Forall (fun c => arg 0 (cr_args c) = VArr (length (heap w))
                          ∧ cr_result c = VArr (length (heap w)))
           (log_of (snd run)))
  ∧ (∀ (a : loc) (predicate : func U) (fuel : nat) (w : world U),
       let run :=
         observed_aggregation fuel a (scratch.filter_aggregator predicate) w in
       leave run = scratch.filter fuel a predicate w
       ∧ Forall (fun c => arg 0 (cr_args c) = VArr (length (heap w))
                          ∧ cr_result c = VArr (length (heap w)))
           (log_of (snd run))).
Proof.
  split; [|split; [|split; [|split; [|split; [|split]]]]].
  - intros a agg fuel m0 w.
    destruct (scratch.reduce fuel a _ m0 _) as [r w'] eqn:Hrun.
    rewrite reduce_fold_from in Hrun.
    destruct (fold_from_chain _ _ _ _ _ _ _ _ _ Hrun) as (new & Hlog & Hchain & Hlast).
    cbn [app] in Hlog. by rewrite Hlog.
  - apply map_aggregator_appends_in_place.
  - apply map_aggregator_does_append.
  - apply filter_aggregator_appends_in_place.
  - apply filter_aggregator_does_append.
  - intros a selector fuel w.
    apply (observed_aggregation_same_accumulator a
             (scratch.map_aggregator selector) fuel w).
    intros args w0 v w1 H.
    by destruct (map_aggregator_appends_in_place _ _ _ _ _ H).
  - intros a predicate fuel w.
    apply (observed_aggregation_same_accumulator a
             (scratch.filter_aggregator predicate) fuel w).
    intros args w0 v w1 H.
    by destruct (filter_aggregator_appends_in_place _ _ _ _ _ H).
Qed.
End Accumulator.

(** ** The theorems at concrete inputs *)

(** A callback that overwrites the element at index 1 of the array at
    address 0 with 9: [function(x) { S[1] = 9; }] (a write past the end
    would lengthen the array and is left out). *)
Definition overwriting_callback : list value -> M unit value :=
  fun _ w =>
    (Ok VUndefined,
     World (<[0 := <[1 := VNum 9]> (elems w 0)]> (heap w)) (user w)).

Lemma overwriting_callback_keeps_length : keeps_length overwriting_callback 0.
Proof.
  intros args [h u]. unfold elems. cbn.
  destruct h as [|es h]; cbn; [done | by rewrite length_insert].
Defined.

(** [forEach] over [[1, 2, 3]] with that callback. *)
Lemma forEach_calls_witness :
  let '(r, w') :=
    scratch.forEach 4 0 (traced Call overwriting_callback)
      (push [] (World [[VNum 1; VNum 2; VNum 3]] tt)) in
  (∀ i c, log_of w' !! i = Some c →
     ∃ x, stored (cr_store c) 0 !! i = Some x ∧ cr_args c = [x])
  ∧ (∀ v, r = Ok v → v = VUndefined ∧ length (log_of w') = 3)
  ∧ (returns_normally overwriting_callback → r = Ok VUndefined).
Proof.
  apply (forEach_calls_each_index_in_order overwriting_callback 0
           overwriting_callback_keeps_length
           4 (World [[VNum 1; VNum 2; VNum 3]] tt)).
  cbn. lia.
Defined.

Example forEach_sees_current_elements :
  log_of (snd (scratch.forEach 4 0 (traced Call overwriting_callback)
                 (push [] (World [[VNum 1; VNum 2; VNum 3]] tt))))
  = [Call [VNum 1] [[VNum 1; VNum 2; VNum 3]] VUndefined;
     Call [VNum 9] [[VNum 1; VNum 9; VNum 3]] VUndefined;
     Call [VNum 3] [[VNum 1; VNum 9; VNum 3]] VUndefined].
Proof. reflexivity. Qed.

Definition plus (m x : value) : value :=
  match m, x with
  | VNum a, VNum b => VNum (a + b)
  | _, _ => VUndefined
  end.


Definition doubling : list value -> M unit value :=
  fun args => ret match arg 0 args with VNum n => VNum (2 * n) | v => v end.

Definition evenness : list value -> M unit value :=
  fun args => ret match arg 0 args with
                  | VNum n => VBool (Z.even n)
                  | _ => VBool false
                  end.

Lemma ret_keeps_length (g : list value -> value) (a : loc) :
  keeps_length (U := unit) (fun args => ret (g args)) a.
Proof. intros args w. reflexivity. Defined.

Lemma ret_keeps_array (g : list value -> value) (a : loc) :
  keeps_array (U := unit) (fun args => ret (g args)) a.
Proof. intros args w. reflexivity. Defined.

(** [map([1, 2, 3], x => x * 2)]. *)
Lemma map_collects_witness :
  let '(res, w') :=
    scratch.map 4 0 (traced Call doubling)
      (push [] (World [[VNum 1; VNum 2; VNum 3]] tt)) in
  [[VNum 1; VNum 2; VNum 3]] !! 1 = None
  ∧ elems w' 1 = cr_result <$> log_of w'
  ∧ (∀ i c, log_of w' !! i = Some c →
       ∃ x, stored (cr_store c) 0 !! i = Some x ∧ cr_args c = [x])
  ∧ (keeps_array doubling 0 → elems w' 0 = [VNum 1; VNum 2; VNum 3])
  ∧ (∀ v, res = Ok v → v = VArr 1 ∧ length (elems w' 1) = 3)
  ∧ (returns_normally doubling → res = Ok (VArr 1)).
Proof.
  apply (map_collects_selector_results doubling 0 4
           (World [[VNum 1; VNum 2; VNum 3]] tt)
           ltac:(cbn; lia) (ret_keeps_length _ 0)
           (ret_keeps_array _ 1) ltac:(cbn; lia)).
Defined.

(** [filter([1, 2, 3, 4], x => x % 2 == 0)]. *)
Lemma filter_keeps_witness :
  let '(res, w') :=
    scratch.filter 5 0 (traced Call evenness)
      (push [] (World [[VNum 1; VNum 2; VNum 3; VNum 4]] tt)) in
  [[VNum 1; VNum 2; VNum 3; VNum 4]] !! 1 = None
  ∧ elems w' 1
    = (fun c => arg 0 (cr_args c))
        <$> List.filter (fun c => truthy (cr_result c)) (log_of w')
  ∧ (∀ i c, log_of w' !! i = Some c →
       ∃ x, stored (cr_store c) 0 !! i = Some x ∧ cr_args c = [x])
  ∧ (keeps_array evenness 0 → elems w' 0 = [VNum 1; VNum 2; VNum 3; VNum 4])
  ∧ (∀ v, res = Ok v →
       v = VArr 1 ∧ length (log_of w') = 4 ∧ length (elems w' 1) ≤ 4)
  ∧ (returns_normally evenness → res = Ok (VArr 1)).
Proof.
  apply (filter_keeps_accepted_elements evenness 0 5
           (World [[VNum 1; VNum 2; VNum 3; VNum 4]] tt)
           ltac:(cbn; lia) (ret_keeps_length _ 0)
           (ret_keeps_array _ 1) ltac:(cbn; lia)).
Defined.

(** [pluck([{a: 1}, {a: 2}], "a")] is [[1, 2]]. *)
Lemma pluck_maps_witness :
  scratch.pluck 3 0 "a" (World [[VObj [("a", VNum 1)]; VObj [("a", VNum 2)]]] tt)
  = (Ok (VArr 1),
     World [[VObj [("a", VNum 1)]; VObj [("a", VNum 2)]]; [VNum 1; VNum 2]] tt).
Proof.
  refine (proj2 (pluck_maps_property_access 0 "a" 3
                   (World [[VObj [("a", VNum 1)]; VObj [("a", VNum 2)]]] tt))
            ltac:(cbn; lia) _ ltac:(cbn; lia)).
  intros l Hl. cbn in Hl.
  apply elem_of_cons in Hl as [Hl|Hl]; [discriminate|].
  apply elem_of_cons in Hl as [Hl|Hl]; [discriminate|].
  by apply elem_of_nil in Hl.
Defined.

(** Calling each of the four twice on [[0, null, 3]]. *)
Lemma twice_yields_equal_outputs_witness :
  (∀ f, ∃ out,
     twice (scratch.map 4 0 (pure_fn f)) (World [[VNum 0; VNull; VNum 3]] tt)
     = ((Ok (VArr 1), Ok (VArr 2)),
        World ([[VNum 0; VNull; VNum 3]] ++ [out; out]) tt))
  ∧ (∀ p, ∃ out,
       twice (scratch.filter 4 0 (pure_fn p)) (World [[VNum 0; VNull; VNum 3]] tt)
       = ((Ok (VArr 1), Ok (VArr 2)),
          World ([[VNum 0; VNull; VNum 3]] ++ [out; out]) tt))
  ∧ (∃ out,
       twice (scratch.compact 4 0) (World [[VNum 0; VNull; VNum 3]] tt)
       = ((Ok (VArr 1), Ok (VArr 2)),
          World ([[VNum 0; VNull; VNum 3]] ++ [out; out]) tt))
  ∧ (∀ property,
       refs_allocated [[VNum 0; VNull; VNum 3]] [VNum 0; VNull; VNum 3] →
       ∃ out s,
         twice (scratch.pluck 4 0 property) (World [[VNum 0; VNull; VNum 3]] tt)
         = ((finish 1 s, finish 2 s),
            World ([[VNum 0; VNull; VNum 3]] ++ [out; out]) tt)).
Proof.
  apply (twice_yields_equal_outputs 0 4 (World [[VNum 0; VNull; VNum 3]] tt));
    cbn; lia.
Defined.

(** * Further properties of the library *)

(** ** [while]: checks and body runs alternate *)

(** One turn of [while]: a truthy check and a run of the body. *)
Fixpoint turns (n : nat) : list event :=
  match n with
  | O => []
  | S n' => ECond true :: EBody :: turns n'
  end.

(** [while] run on an observed condition and body, from an empty log. *)
Definition observed_while {U} (fuel : nat)
    (condition fn : list value -> M U value) (w : world U)
  : res value * world (list event * U) :=
  scratch.while_ fuel
    (traced (fun _ _ v => ECond (truthy v)) condition)
    (announce EBody fn)
    (push [] w).

Lemma observed_while_is_while {U} (fuel : nat)
    (condition fn : list value -> M U value) (w : world U) :
  leave (observed_while fuel condition fn w)
  = scratch.while_ fuel (Fn condition) (Fn fn) w.
Proof.
  unfold observed_while, scratch.while_, traced.
  apply (covers_bind _ _ _ _ (covers_loop _ _ (Fn condition) (Fn fn) fuel
           (covers_traced (fun _ _ v => ECond (truthy v)) condition)
           (covers_announce EBody fn))).
  intros _. apply covers_ret.
Qed.

Lemma loop_turns {U} (condition fn : list value -> M U value) (fuel : nat)
    (log : list event) (w : world U) r w' :
  scratch.loop fuel (traced (fun _ _ v => ECond (truthy v)) condition)
    (announce EBody fn) (push log w) = (r, w') →
  ∃ n, log_of w'
       = log ++ turns n ++ match r with Ok _ => [ECond false] | _ => [] end
       ∧ ∀ v, r = Ok v → v = VUndefined.
Proof.
  revert log w. induction fuel as [|fuel IH]; intros log w.
  - intros [= <- <-]. exists 0. cbn. by rewrite app_nil_r.
  - cbn [scratch.loop]. unfold bind at 1. rewrite traced_run.
    destruct (condition [] w) as [[c|e|] w1];
      [|intros [= <- <-]; exists 0; cbn; by rewrite app_nil_r ..].
    destruct (truthy c) eqn:Hc.
    + unfold bind. rewrite announce_run.
      destruct (fn [] w1) as [[x|e|] w2]; cbn [fst snd];
        [|intros [= <- <-]; exists 1; cbn; by rewrite <- app_assoc ..].
      intros Hloop. destruct (IH _ _ Hloop) as (n & Hlog & Hres).
      exists (S n). split; [|done]. rewrite Hlog. cbn. by rewrite <- !app_assoc.
    + intros [= <- <-]. exists 0. cbn. split; [done|]. by intros v [= <-].
Qed.

(** X1. Whatever the condition and the body do, the calls [while] makes
    are turns of one truthy check followed by one run of the body; the
    call returns ([undefined]) exactly after a check that was falsy, and
    then the body has run once for every truthy check. *)
Theorem while_alternates_check_and_body {U}
    (condition fn : list value -> M U value) (fuel : nat) (w : world U) :
  let '(r, w') := observed_while fuel condition fn w in
  ∃ n, log_of w' = turns n ++ match r with Ok _ => [ECond false] | _ => [] end
       ∧ ∀ v, r = Ok v → v = VUndefined.
Proof.
  unfold observed_while, scratch.while_, traced. unfold bind.
  fold (traced (fun _ _ v => ECond (truthy v)) condition).
  destruct (scratch.loop fuel _ _ _) as [r w'] eqn:Hloop.
  destruct (loop_turns _ _ _ _ _ _ _ Hloop) as (n & Hlog & Hres).
  destruct r as [v|e|]; exists n; (split; [exact Hlog|]); try done.
  by intros v' [= <-].
Qed.

(** ** Errors come from the callbacks *)

(** [e] is an error that some call of [f] throws. *)
Definition thrown_by {U} (f : list value -> M U value) (e : exn) : Prop :=
  ∃ args w, fst (f args w) = Throw e.

Lemma loop_throws {U} (c b : list value -> M U value) (fuel : nat)
    (w w' : world U) (e : exn) :
  scratch.loop fuel (Fn c) (Fn b) w = (Throw e, w') →
  thrown_by c e ∨ thrown_by b e.
Proof.
  revert w. induction fuel as [|fuel IH]; intros w; [discriminate|].
  cbn [scratch.loop call]. unfold bind at 1.
  destruct (c [] w) as [[x|e'|] w1] eqn:Hc; [| |discriminate].
  - destruct (truthy x); [|discriminate]. unfold bind.
    destruct (b [] w1) as [[y|e'|] w2] eqn:Hb; [apply IH| |discriminate].
    intros [= -> _]. right. exists [], w1. by rewrite Hb.
  - intros [= -> _]. left. exists [], w. by rewrite Hc.
Qed.

(** X2. With functions for all its arguments, [while] throws only what
    its condition or its body throws, and [for] only what one of its four
    callbacks throws: neither adds an error of its own. *)
Theorem while_and_for_add_no_error {U}
    (init condition update fn : list value -> M U value) (fuel : nat)
    (w : world U) (e : exn) :
  (fst (scratch.while_ fuel (Fn condition) (Fn fn) w) = Throw e →
   thrown_by condition e ∨ thrown_by fn e)
  ∧ (fst (scratch.for_ fuel (Fn init) (Fn condition) (Fn update) (Fn fn) w)
     = Throw e →
     thrown_by init e ∨ thrown_by condition e
     ∨ thrown_by update e ∨ thrown_by fn e).
Proof.
  split.
  - unfold scratch.while_, bind.
    destruct (scratch.loop fuel _ _ w) as [[v|e'|] w'] eqn:Hloop;
      try discriminate.
    intros [= ->]. by eapply loop_throws.
  - unfold scratch.for_, scratch.while_. unfold bind at 1. cbn [call].
    destruct (init [] w) as [[v|e'|] w1] eqn:Hinit; [| |discriminate].
    + unfold bind.
      destruct (scratch.loop fuel _ _ w1) as [[v'|e'|] w'] eqn:Hloop;
        try discriminate.
      intros [= ->].
      change (scratch.for_body (Fn update) (Fn fn))
        with (Fn (fun _ : list value => call (Fn fn) [] >> call (Fn update) [] >> ret VUndefined))
        in Hloop.
      destruct (loop_throws _ _ _ _ _ _ Hloop) as [H|(args & w0 & H)]; [auto|].
      revert H. unfold bind. cbn [call].
      destruct (fn [] w0) as [[x|e'|] w2] eqn:Hfn; cbn [fst].
      * destruct (update [] w2) as [[y|e'|] w3] eqn:Hup; cbn [fst];
          try discriminate.
        intros [= ->]. right; right; left. exists [], w2. by rewrite Hup.
      * intros [= ->]. right; right; right. exists [], w0. by rewrite Hfn.
      * discriminate.
    + intros [= ->]. left. exists [], w. by rewrite Hinit.
Qed.

Lemma each_from_throws {U} (F : list value -> M U value) (a : loc)
    (fuel i : nat) (w w' : world U) (e : exn) :
  each_from fuel a (Fn F) i w = (Throw e, w') → thrown_by F e.
Proof.
  revert i w. induction fuel as [|fuel IH]; intros i w; [discriminate|].
  cbn [each_from]. destruct (i <? _); [|discriminate]. unfold bind. cbn [call].
  destruct (F _ w) as [[x|e'|] w1] eqn:HF; [apply IH| |discriminate].
  intros [= -> _]. eexists _, w. by rewrite HF.
Qed.

Lemma fold_from_throws {U} (F : list value -> M U value) (a : loc)
    (fuel i : nat) (m : value) (w w' : world U) (e : exn) :
  fold_from fuel a (Fn F) i m w = (Throw e, w') → thrown_by F e.
Proof.
  revert i m w. induction fuel as [|fuel IH]; intros i m w; [discriminate|].
  cbn [fold_from]. destruct (i <? _); [|discriminate]. unfold bind. cbn [call].
  destruct (F _ w) as [[x|e'|] w1] eqn:HF; [apply IH| |discriminate].
  intros [= -> _]. eexists _, w. by rewrite HF.
Qed.

(** X3. [forEach] throws only what its callback throws, and [reduce]
    only what its aggregator throws. *)
Theorem forEach_and_reduce_add_no_error {U} (F : list value -> M U value)
    (a : loc) (fuel : nat) (m : value) (w : world U) (e : exn) :
  (fst (scratch.forEach fuel a (Fn F) w) = Throw e → thrown_by F e)
  ∧ (fst (scratch.reduce fuel a (Fn F) m w) = Throw e → thrown_by F e).
Proof.
  split.
  - rewrite forEach_each_from.
    destruct (each_from fuel a (Fn F) 0 w) as [r w'] eqn:Hrun.
    intros [= ->]. by eapply each_from_throws.
  - rewrite reduce_fold_from.
    destruct (fold_from fuel a (Fn F) 0 m w) as [r w'] eqn:Hrun.
    intros [= ->]. by eapply fold_from_throws.
Qed.

(** ** Callbacks that are not functions *)

Lemma elems_new_array {U} (w : world U) (a : loc) :
  elems (World (heap w ++ [[]]) (user w)) a = elems w a.
Proof.
  unfold elems. cbn [heap].
  destruct (Nat.lt_ge_cases a (length (heap w))) as [Hlt|Hge].
  - by rewrite lookup_app_l.
  - rewrite (lookup_ge_None_2 (heap w)) by done.
    rewrite lookup_app_r by done.
    by destruct (a - length (heap w)) as [|[|n]].
Qed.

(** X4. Only [while] checks an argument.  Given a callback that is not a
    function, [forEach] and [reduce] over an empty array return normally
    ([undefined], the initial accumulator) without touching anything, and
    over a non-empty array they fail with the host's TypeError at the
    first call; [map] and [filter] do the same after allocating their
    result. *)
Theorem non_function_callback_fails_at_first_call {U} (v m : value) (a : loc)
    (fuel : nat) (w : world U) :
  let failure : res value := Throw (TypeError "not a function") in
  let allocated := World (heap w ++ [[]]) (user w) in
  scratch.forEach (S fuel) a (NotFn v) w
  = (if elems w a is [] then Ok VUndefined else failure, w)
  ∧ scratch.reduce (S fuel) a (NotFn v) m w
    = (if elems w a is [] then Ok m else failure, w)
  ∧ scratch.map (S fuel) a (NotFn v) w
    = (if elems w a is [] then Ok (VArr (length (heap w))) else failure,
       allocated)
  ∧ scratch.filter (S fuel) a (NotFn v) w
    = (if elems w a is [] then Ok (VArr (length (heap w))) else failure,
       allocated).
Proof.
  cbv zeta. repeat split.
  - rewrite forEach_each_from. cbn [each_from].
    by destruct (elems w a) as [|x es].
  - rewrite reduce_fold_from. cbn [fold_from].
    by destruct (elems w a) as [|x es].
  - unfold scratch.map, bind, new_array. rewrite reduce_fold_from.
    cbn [fold_from]. rewrite elems_new_array.
    by destruct (elems w a) as [|x es].
  - unfold scratch.filter, bind, new_array. rewrite reduce_fold_from.
    cbn [fold_from]. rewrite elems_new_array.
    by destruct (elems w a) as [|x es].
Qed.

(** ** Recursion depth *)

(** Every call of the callback leaves the array at [a] longer. *)
Definition lengthens {U} (f : list value -> M U value) (a : loc) : Prop :=
  ∀ args w, length (elems w a) < length (elems (snd (f args w)) a).

Lemma each_from_depth {U} (F : list value -> M U value) (a : loc) (n : nat) :
  keeps_length F a → returns_normally F →
  ∀ fuel i (w : world U),
    length (elems w a) = n → i ≤ n →
    fst (each_from fuel a (Fn F) i w)
    = if fuel <=? n - i then Timeout else Ok VUndefined.
Proof.
  intros Hlen Hret. induction fuel as [|fuel IH]; intros i w Hn Hi; [done|].
  cbn [each_from]. rewrite Hn.
  destruct (Nat.ltb_spec i n) as [Hlt|Hge].
  - unfold bind. cbn [call].
    destruct (Hret [default VUndefined (elems w a !! i)] w) as [v Hv].
    pose proof (Hlen [default VUndefined (elems w a !! i)] w) as Hl.
    destruct (F _ w) as [r w1]; cbn [fst snd] in Hv, Hl; subst r.
    rewrite IH by lia.
    destruct (Nat.leb_spec fuel (n - S i)), (Nat.leb_spec (S fuel) (n - i));
      (done || lia).
  - cbn [fst]. by destruct (Nat.leb_spec (S fuel) (n - i)); [lia|].
Qed.

(** X5. [while] recurses once per round, so for a callback that keeps
    the length of the array and returns from every call, [forEach] needs
    a recursion depth of the length of the array plus one: with less it
    does not finish, with that much or more it returns [undefined]. *)
Theorem forEach_depth_is_length_plus_one {U} (F : list value -> M U value)
    (a : loc) (fuel : nat) (w : world U) :
  keeps_length F a → returns_normally F →
  fst (scratch.forEach fuel a (Fn F) w)
  = if fuel <=? length (elems w a) then Timeout else Ok VUndefined.
Proof.
  intros Hlen Hret. rewrite forEach_each_from.
  rewrite (each_from_depth F a (length (elems w a)) Hlen Hret) by (done || lia).
  by rewrite Nat.sub_0_r.
Qed.

Lemma ignoring_callback_keeps_length :
  keeps_length (U := unit) (fun _ => ret VUndefined) 0.
Proof. intros args w. reflexivity. Defined.

Lemma ignoring_callback_returns :
  returns_normally (U := unit) (fun _ => ret VUndefined).
Proof. intros args w. by eexists. Defined.

(** An array of three elements: depth 3 is not enough, depth 4 is. *)
Lemma forEach_depth_witness :
  fst (scratch.forEach 3 0 (Fn (fun _ => ret VUndefined))
         (World [[VNum 1; VNum 2; VNum 3]] tt)) = Timeout
  ∧ fst (scratch.forEach 4 0 (Fn (fun _ => ret VUndefined))
           (World [[VNum 1; VNum 2; VNum 3]] tt)) = Ok VUndefined.
Proof.
  split.
  - exact (forEach_depth_is_length_plus_one (fun _ => ret VUndefined) 0 3
             (World [[VNum 1; VNum 2; VNum 3]] tt)
             ignoring_callback_keeps_length ignoring_callback_returns).
  - exact (forEach_depth_is_length_plus_one (fun _ => ret VUndefined) 0 4
             (World [[VNum 1; VNum 2; VNum 3]] tt)
             ignoring_callback_keeps_length ignoring_callback_returns).
Defined.

Lemma each_from_lengthening {U} (F : list value -> M U value) (a : loc) :
  lengthens F a → returns_normally F →
  ∀ fuel i (w : world U),
    i < length (elems w a) → fst (each_from fuel a (Fn F) i w) = Timeout.
Proof.
  intros Hgrow Hret. induction fuel as [|fuel IH]; intros i w Hi; [done|].
  cbn [each_from]. destruct (Nat.ltb_spec i (length (elems w a))); [|lia].
  unfold bind. cbn [call].
  destruct (Hret [default VUndefined (elems w a !! i)] w) as [v Hv].
  pose proof (Hgrow [default VUndefined (elems w a !! i)] w) as Hl.
  destruct (F _ w) as [r w1]; cbn [fst snd] in Hv, Hl; subst r.
  apply IH. lia.
Qed.

(** X6. The bound of [forEach] is the current length of the array, read
    again at every check: over a non-empty array, a callback that makes
    the array longer at every call is never done, whatever the recursion
    depth. *)
Theorem forEach_over_growing_array_never_returns {U}
    (F : list value -> M U value) (a : loc) (fuel : nat) (w : world U) :
  lengthens F a → returns_normally F → elems w a ≠ [] →
  fst (scratch.forEach fuel a (Fn F) w) = Timeout.
Proof.
  intros Hgrow Hret Hne. rewrite forEach_each_from.
  apply each_from_lengthening; [done ..|].
  destruct (elems w a); [done | cbn; lia].
Qed.

(** [function(x) { S.push(x); }] with [S] at address 0.  (Were there no
    array at address 0 the model has nothing to push to; the callback
    then allocates one, so that it lengthens [S] in every world.) *)
Definition pushing_callback : list value -> M unit value :=
  fun args w =>
    (Ok VUndefined,
     match heap w with
     | [] => World [[arg 0 args]] (user w)
     | es :: h => World ((es ++ [arg 0 args]) :: h) (user w)
     end).

Lemma pushing_callback_lengthens : lengthens pushing_callback 0.
Proof.
  intros args [h u]. unfold elems. destruct h as [|es h]; cbn; [lia|].
  rewrite length_app. cbn. lia.
Defined.

Lemma pushing_callback_returns : returns_normally pushing_callback.
Proof. intros args w. by eexists. Defined.

Lemma forEach_growing_witness :
  fst (scratch.forEach 50 0 (Fn pushing_callback) (World [[VNum 1]] tt))
  = Timeout.
Proof.
  apply (forEach_over_growing_array_never_returns pushing_callback 0 50
           (World [[VNum 1]] tt)
           pushing_callback_lengthens pushing_callback_returns).
  discriminate.
Defined.

(** ** Composing [map], [filter] and [compact] *)

Lemma filter_filter {A} (p q : A -> bool) (l : list A) :
  List.filter q (List.filter p l) = List.filter (fun x => p x && q x) l.
Proof.
  induction l as [|x l IH]; [done|]. cbn.
  destruct (p x); cbn; [destruct (q x)|]; by rewrite IH.
Qed.

Section Composition.
Context {U : Type}.
Variable a : loc.
Variable fuel : nat.
Variable w : world U.
Hypothesis a_allocated : a < length (heap w).
Hypothesis enough_fuel : length (elems w a) < fuel.

Lemma result_allocated (out : list value) :
  length (heap w) < length (heap (World (heap w ++ [out]) (user w))).
Proof. cbn [heap]. rewrite length_app. cbn. lia. Qed.

Lemma elems_result (out : list value) :
  elems (World (heap w ++ [out]) (user w)) (length (heap w)) = out.
Proof. unfold elems. cbn [heap]. by rewrite list_lookup_middle. Qed.

Lemma elems_input (h' : list (list value)) (u : U) :
  elems (World (heap w ++ h') u) a = elems w a.
Proof. unfold elems. cbn [heap]. by rewrite lookup_app_l. Qed.

Lemma elems_second_result (out out' : list value) :
  elems (World (heap w ++ [out; out']) (user w)) (S (length (heap w))) = out'.
Proof.
  unfold elems. cbn [heap].
  change (heap w ++ [out; out']) with (heap w ++ [out] ++ [out']).
  rewrite app_assoc.
  rewrite (list_lookup_middle _ [] _ (S (length (heap w)))); [done|].
  rewrite length_app. cbn. lia.
Qed.

Lemma map_pure_on_result (g : value -> value) (out : list value) :
  length out < fuel →
  scratch.map fuel (length (heap w)) (pure_fn g) (World (heap w ++ [out]) (user w))
  = (Ok (VArr (S (length (heap w)))),
     World (heap w ++ [out; g <$> out]) (user w)).
Proof.
  intros Hout.
  rewrite (map_pure _ _ (result_allocated out)) by (by rewrite elems_result).
  cbn [heap user]. rewrite elems_result, length_app, Nat.add_1_r.
  by rewrite <- app_assoc.
Qed.

Lemma filter_pure_on_result (q : value -> value) (out : list value) :
  length out < fuel →
  scratch.filter fuel (length (heap w)) (pure_fn q)
    (World (heap w ++ [out]) (user w))
  = (Ok (VArr (S (length (heap w)))),
     World (heap w ++ [out; List.filter (fun x => truthy (q x)) out]) (user w)).
Proof.
  intros Hout.
  rewrite (filter_pure _ _ (result_allocated out)) by (by rewrite elems_result).
  cbn [heap user]. rewrite elems_result, length_app, Nat.add_1_r.
  by rewrite <- app_assoc.
Qed.

(** X7. Mapping [g] over the result of mapping [f] gives, in a further
    new array, the elements that mapping the composition of [f] and [g]
    gives; the input array is as it was (for [f] and [g] functions of
    their argument without effects). *)
Theorem map_of_map_is_map_of_composition (f g : value -> value) :
  let r := length (heap w) in
  ∃ w1 w2 w3,
    scratch.map fuel a (pure_fn f) w = (Ok (VArr r), w1)
    ∧ scratch.map fuel r (pure_fn g) w1 = (Ok (VArr (S r)), w2)
    ∧ scratch.map fuel a (pure_fn (g ∘ f)) w = (Ok (VArr r), w3)
    ∧ elems w2 (S r) = elems w3 r
    ∧ elems w2 a = elems w a.
Proof.
  intros r. subst r. do 3 eexists.
  split; [by apply map_pure|].
  split; [apply map_pure_on_result; by rewrite length_fmap|].
  split; [by apply map_pure|]. split.
  - rewrite elems_second_result, elems_result. by rewrite <- list_fmap_compose.
  - apply elems_input.
Qed.

(** X8. Filtering by [q] the result of filtering by [p] gives, in a
    further new array, the elements that one filter by "[p] and [q]"
    gives; the input array is as it was (for [p] and [q] functions of
    their argument without effects). *)
Theorem filter_of_filter_is_filter_of_both (p q : value -> value) :
  let r := length (heap w) in
  let both := fun x => VBool (truthy (p x) && truthy (q x)) in
  ∃ w1 w2 w3,
    scratch.filter fuel a (pure_fn p) w = (Ok (VArr r), w1)
    ∧ scratch.filter fuel r (pure_fn q) w1 = (Ok (VArr (S r)), w2)
    ∧ scratch.filter fuel a (pure_fn both) w = (Ok (VArr r), w3)
    ∧ elems w2 (S r) = elems w3 r
    ∧ elems w2 a = elems w a.
Proof.
  intros r both. subst r. do 3 eexists.
  split; [by apply filter_pure|]. split.
  { apply filter_pure_on_result.
    pose proof (List.filter_length_le (fun x => truthy (p x)) (elems w a)).
    lia. }
  split; [by apply filter_pure|]. split.
  - rewrite elems_second_result, elems_result. apply filter_filter.
  - apply elems_input.
Qed.

(** X9. [compact] of the result of [compact] gives, in a further new
    array, the same elements as that result, none of which is [null] or
    [undefined]; the input array is as it was. *)
Theorem compact_of_compact_changes_nothing :
  let r := length (heap w) in
  ∃ w1 w2,
    scratch.compact fuel a w = (Ok (VArr r), w1)
    ∧ scratch.compact fuel r w1 = (Ok (VArr (S r)), w2)
    ∧ elems w2 (S r) = elems w1 r
    ∧ Forall (fun v => v ≠ VNull ∧ v ≠ VUndefined) (elems w1 r)
    ∧ elems w2 a = elems w a.
Proof.
  intros r. subst r. do 2 eexists.
  split; [by apply compact_filters|]. split.
  { apply (filter_pure_on_result (fun v => VBool (not_nullish v))).
    pose proof (List.filter_length_le not_nullish (elems w a)). lia. }
  split; [|split].
  - rewrite elems_second_result, elems_result.
    change (fun x => truthy (VBool (not_nullish x))) with not_nullish.
    rewrite filter_filter.
    apply List.filter_ext. intros x. by destruct (not_nullish x).
  - rewrite elems_result. apply List.Forall_forall. intros x Hx.
    apply List.filter_In in Hx as [_ Hx]. by destruct x.
  - apply elems_input.
Qed.
End Composition.

Definition incremented (v : value) : value :=
  match v with VNum n => VNum (n + 1) | _ => v end.

Definition doubled (v : value) : value :=
  match v with VNum n => VNum (2 * n) | _ => v end.

(** Doubling the successors of [[1, 2]]. *)
Lemma map_of_map_witness :
  ∃ w1 w2 w3,
    scratch.map 3 0 (pure_fn incremented) (World [[VNum 1; VNum 2]] tt)
    = (Ok (VArr 1), w1)
    ∧ scratch.map 3 1 (pure_fn doubled) w1 = (Ok (VArr 2), w2)
    ∧ scratch.map 3 0 (pure_fn (doubled ∘ incremented))
        (World [[VNum 1; VNum 2]] tt)
      = (Ok (VArr 1), w3)
    ∧ elems w2 2 = elems w3 1
    ∧ elems w2 0 = [VNum 1; VNum 2].
Proof.
  apply (map_of_map_is_map_of_composition 0 3 (World [[VNum 1; VNum 2]] tt)
           ltac:(cbn; lia) ltac:(cbn; lia) incremented doubled).
Defined.

Definition positive (v : value) : value :=
  match v with VNum n => VBool (0 <? n)%Z | _ => VBool false end.

Definition even (v : value) : value :=
  match v with VNum n => VBool (Z.even n) | _ => VBool false end.

(** The even ones among the positive ones of [[-2, 1, 2]]. *)
Lemma filter_of_filter_witness :
  ∃ w1 w2 w3,
    scratch.filter 4 0 (pure_fn positive)
      (World [[VNum (-2); VNum 1; VNum 2]] tt)
    = (Ok (VArr 1), w1)
    ∧ scratch.filter 4 1 (pure_fn even) w1 = (Ok (VArr 2), w2)
    ∧ scratch.filter 4 0
        (pure_fn (fun x => VBool (truthy (positive x) && truthy (even x))))
        (World [[VNum (-2); VNum 1; VNum 2]] tt)
      = (Ok (VArr 1), w3)
    ∧ elems w2 2 = elems w3 1
    ∧ elems w2 0 = [VNum (-2); VNum 1; VNum 2].
Proof.
  apply (filter_of_filter_is_filter_of_both 0 4
           (World [[VNum (-2); VNum 1; VNum 2]] tt)
           ltac:(cbn; lia) ltac:(cbn; lia) positive even).
Defined.

Lemma compact_of_compact_witness :
  ∃ w1 w2,
    scratch.compact 4 0 (World [[VNull; VNum 0; VUndefined]] tt)
    = (Ok (VArr 1), w1)
    ∧ scratch.compact 4 1 w1 = (Ok (VArr 2), w2)
    ∧ elems w2 2 = elems w1 1
    ∧ Forall (fun v => v ≠ VNull ∧ v ≠ VUndefined) (elems w1 1)
    ∧ elems w2 0 = [VNull; VNum 0; VUndefined].
Proof.
  apply (compact_of_compact_changes_nothing 0 4
           (World [[VNull; VNum 0; VUndefined]] tt)
           ltac:(cbn; lia) ltac:(cbn; lia)).
Defined.

(** ** [pluck]: elements without properties *)

Lemma property_of_non_nullish (store : list (list value)) (property : string)
    (e : value) :
  not_nullish e = true → ∃ v, property_of store e property = Ok v.
Proof. destruct e; try discriminate; intros _; by eexists. Qed.

Lemma collect_until_nullish (store : list (list value)) (property : string)
    (pre post : list value) (e : value) :
  Forall (fun x => not_nullish x = true) pre →
  not_nullish e = false →
  ∃ vs, collect (fun x => property_of store x property) (pre ++ e :: post)
        = (vs, Throw (TypeError "cannot read properties of null or undefined"))
        ∧ length vs = length pre.
Proof.
  intros Hpre He. induction Hpre as [|x pre Hx _ IH].
  - exists []. split; [|done]. cbn. by destruct e.
  - destruct IH as (vs & Hvs & Hlen).
    destruct (property_of_non_nullish store property x Hx) as [v Hv].
    exists (v :: vs). cbn. rewrite Hv, Hvs. cbn. by rewrite Hlen.
Qed.

(** X11. [pluck] fails at the first element that is [null] or
    [undefined], with the TypeError of the property access: the elements
    before it have been read (their values sit in the array [pluck] had
    allocated, which the caller never receives), the elements after it are
    not looked at, and the input array is as it was. *)
Theorem pluck_fails_at_first_null_or_undefined {U} (a : loc)
    (property : string) (fuel : nat) (w : world U)
    (pre post : list value) (e : value) :
  a < length (heap w) →
  length (elems w a) < fuel →
  refs_allocated (heap w) (elems w a) →
  elems w a = pre ++ e :: post →
  Forall (fun x => not_nullish x = true) pre →
  not_nullish e = false →
  ∃ vs,
    scratch.pluck fuel a property w
    = (Throw (TypeError "cannot read properties of null or undefined"),
       World (heap w ++ [vs]) (user w))
    ∧ length vs = length pre.
Proof.
  intros Ha Hfuel Hrefs Hes Hpre He.
  destruct (collect_until_nullish (heap w) property pre post e Hpre He)
    as (vs & Hvs & Hlen).
  exists vs. split; [|done].
  rewrite pluck_collects by done. unfold pluck_spec. by rewrite Hes, Hvs.
Qed.

Lemma pluck_fails_witness :
  ∃ vs,
    scratch.pluck 4 0 "a"
      (World [[VObj [("a", VNum 1)]; VNull; VObj [("a", VNum 2)]]] tt)
    = (Throw (TypeError "cannot read properties of null or undefined"),
       World ([[VObj [("a", VNum 1)]; VNull; VObj [("a", VNum 2)]]] ++ [vs]) tt)
    ∧ length vs = 1.
Proof.
  apply (pluck_fails_at_first_null_or_undefined 0 "a" 4
           (World [[VObj [("a", VNum 1)]; VNull; VObj [("a", VNum 2)]]] tt)
           [VObj [("a", VNum 1)]] [VObj [("a", VNum 2)]] VNull);
    [cbn; lia | cbn; lia | | reflexivity | by repeat constructor | reflexivity].
  intros l Hl. cbn in Hl.
  repeat (apply elem_of_cons in Hl as [Hl|Hl]; [discriminate|]).
  by apply elem_of_nil in Hl.
Defined.

(** ** A deeper stack changes no outcome *)

Lemma loop_more_fuel {U} (c b : func U) (fuel k : nat) (w w' : world U) r :
  r ≠ Timeout →
  scratch.loop fuel c b w = (r, w') → scratch.loop (fuel + k) c b w = (r, w').
Proof.
  intros Hr. revert w. induction fuel as [|fuel IH]; intros w.
  - by intros [= <- _].
  - cbn [scratch.loop Nat.add]. unfold bind at 1 3.
    destruct (call c [] w) as [[x|e|] w1]; [|done ..].
    destruct (truthy x); [|done]. unfold bind.
    destruct (call b [] w1) as [[y|e|] w2]; [apply IH | done ..].
Qed.

Lemma each_from_more_fuel {U} (f : func U) (a : loc) (fuel k i : nat)
    (w w' : world U) r :
  r ≠ Timeout →
  each_from fuel a f i w = (r, w') → each_from (fuel + k) a f i w = (r, w').
Proof.
  intros Hr. revert i w. induction fuel as [|fuel IH]; intros i w.
  - by intros [= <- _].
  - cbn [each_from Nat.add]. destruct (i <? _); [|done]. unfold bind.
    destruct (call f _ w) as [[y|e|] w1]; [apply IH | done ..].
Qed.

Lemma fold_from_more_fuel {U} (f : func U) (a : loc) (fuel k i : nat)
    (m : value) (w w' : world U) r :
  r ≠ Timeout →
  fold_from fuel a f i m w = (r, w') → fold_from (fuel + k) a f i m w = (r, w').
Proof.
  intros Hr. revert i m w. induction fuel as [|fuel IH]; intros i m w.
  - by intros [= <- _].
  - cbn [fold_from Nat.add]. destruct (i <? _); [|done]. unfold bind.
    destruct (call f _ w) as [[y|e|] w1]; [apply IH | done ..].
Qed.

Lemma while_more_fuel {U} (c b : func U) (fuel k : nat) (w w' : world U) r :
  r ≠ Timeout →
  scratch.while_ fuel c b w = (r, w') →
  scratch.while_ (fuel + k) c b w = (r, w').
Proof.
  intros Hr. unfold scratch.while_. destruct c as [g|v]; [|done].
  unfold bind.
  destruct (scratch.loop fuel (Fn g) b w) as [r0 w0] eqn:Hloop.
  destruct r0 as [x|e|].
  - by rewrite (loop_more_fuel _ _ _ k _ _ (Ok x) ltac:(done) Hloop).
  - by rewrite (loop_more_fuel _ _ _ k _ _ (Throw e) ltac:(done) Hloop).
  - by intros [= <- _].
Qed.

(** X12. The recursion of [while] is the only thing in the library that
    depends on the depth available: a call of any of the functions that
    returns or throws within some depth has the same outcome, and leaves
    the same world, within any greater depth. *)
Theorem outcome_is_the_same_with_more_depth {U}
    (init condition update fn : func U) (a : loc) (m : value)
    (fuel k : nat) (w w' : world U) (r : res value) :
  r ≠ Timeout →
  (scratch.while_ fuel condition fn w = (r, w') →
   scratch.while_ (fuel + k) condition fn w = (r, w'))
  ∧ (scratch.for_ fuel init condition update fn w = (r, w') →
     scratch.for_ (fuel + k) init condition update fn w = (r, w'))
  ∧ (scratch.forEach fuel a fn w = (r, w') →
     scratch.forEach (fuel + k) a fn w = (r, w'))
  ∧ (scratch.reduce fuel a fn m w = (r, w') →
     scratch.reduce (fuel + k) a fn m w = (r, w'))
  ∧ (scratch.map fuel a fn w = (r, w') →
     scratch.map (fuel + k) a fn w = (r, w'))
  ∧ (scratch.filter fuel a fn w = (r, w') →
     scratch.filter (fuel + k) a fn w = (r, w')).
Proof.
  intros Hr.
  split; [by apply while_more_fuel|]. split.
  { unfold scratch.for_. unfold bind at 1 3.
    destruct (call init [] w) as [[x|e|] w1]; [|done ..].
    unfold bind.
    destruct (scratch.while_ fuel _ _ w1) as [r0 w0] eqn:Hw.
    destruct r0 as [y|e|].
    - by rewrite (while_more_fuel _ _ _ k _ _ (Ok y) ltac:(done) Hw).
    - by rewrite (while_more_fuel _ _ _ k _ _ (Throw e) ltac:(done) Hw).
    - by intros [= <- _]. }
  split; [rewrite !forEach_each_from; by apply each_from_more_fuel|].
  split; [rewrite !reduce_fold_from; by apply fold_from_more_fuel|].
  split.
  - unfold scratch.map, bind, new_array. rewrite !reduce_fold_from.
    by apply fold_from_more_fuel.
  - unfold scratch.filter, bind, new_array. rewrite !reduce_fold_from.
    by apply fold_from_more_fuel.
Qed.

Lemma more_depth_witness :
  (scratch.while_ 2 (Fn (fun _ => ret (VBool false))) (Fn (fun _ => ret VUndefined))
     (World [[VNum 1]] tt) = (Ok VUndefined, World [[VNum 1]] tt) →
   scratch.while_ (2 + 5) (Fn (fun _ => ret (VBool false)))
     (Fn (fun _ => ret VUndefined)) (World [[VNum 1]] tt)
   = (Ok VUndefined, World [[VNum 1]] tt))
  ∧ (scratch.for_ 2 (Fn (fun _ => ret VUndefined)) (Fn (fun _ => ret (VBool false)))
       (Fn (fun _ => ret VUndefined)) (Fn (fun _ => ret VUndefined))
       (World [[VNum 1]] tt) = (Ok VUndefined, World [[VNum 1]] tt) →
     scratch.for_ (2 + 5) (Fn (fun _ => ret VUndefined))
       (Fn (fun _ => ret (VBool false)))
       (Fn (fun _ => ret VUndefined)) (Fn (fun _ => ret VUndefined))
       (World [[VNum 1]] tt) = (Ok VUndefined, World [[VNum 1]] tt))
  ∧ (scratch.forEach 2 0 (Fn (fun _ => ret VUndefined)) (World [[VNum 1]] tt)
     = (Ok VUndefined, World [[VNum 1]] tt) →
     scratch.forEach (2 + 5) 0 (Fn (fun _ => ret VUndefined)) (World [[VNum 1]] tt)
     = (Ok VUndefined, World [[VNum 1]] tt))
  ∧ (scratch.reduce 2 0 (Fn (fun _ => ret VUndefined)) VNull (World [[VNum 1]] tt)
     = (Ok VUndefined, World [[VNum 1]] tt) →
     scratch.reduce (2 + 5) 0 (Fn (fun _ => ret VUndefined)) VNull
       (World [[VNum 1]] tt)
     = (Ok VUndefined, World [[VNum 1]] tt))
  ∧ (scratch.map 2 0 (Fn (fun _ => ret VUndefined)) (World [[VNum 1]] tt)
     = (Ok VUndefined, World [[VNum 1]] tt) →
     scratch.map (2 + 5) 0 (Fn (fun _ => ret VUndefined)) (World [[VNum 1]] tt)
     = (Ok VUndefined, World [[VNum 1]] tt))
  ∧ (scratch.filter 2 0 (Fn (fun _ => ret VUndefined)) (World [[VNum 1]] tt)
     = (Ok VUndefined, World [[VNum 1]] tt) →
     scratch.filter (2 + 5) 0 (Fn (fun _ => ret VUndefined)) (World [[VNum 1]] tt)
     = (Ok VUndefined, World [[VNum 1]] tt)).
Proof.
  apply (outcome_is_the_same_with_more_depth
           (Fn (fun _ => ret VUndefined)) (Fn (fun _ => ret (VBool false)))
           (Fn (fun _ => ret VUndefined)) (Fn (fun _ => ret VUndefined))
           0 VNull 2 5 (World [[VNum 1]] tt) (World [[VNum 1]] tt)
           (Ok VUndefined)).
  discriminate.
Defined.

(** ** [reduce]: one call of the aggregator per element *)

Section ReduceCalls.
Context {U : Type}.
Variable F : list value -> M U value.
Variable a : loc.
Hypothesis F_keeps_length : keeps_length F a.

Lemma fold_from_traced (n fuel i : nat) (m : value) (log : list call_record)
    (w : world U) :
  length (elems w a) = n → i ≤ n → n - i < fuel →
  ∃ r w' new,
    fold_from fuel a (traced Call F) i m (push log w)
    = (r, push (log ++ new) w')
    ∧ (∀ k c, new !! k = Some c →
         ∃ m' x, cr_args c = [m'; x]
                 ∧ stored (cr_store c) a !! (i + k) = Some x)
    ∧ (∀ v, r = Ok v → length new = n - i)
    ∧ (returns_normally F → ∃ v, r = Ok v).
Proof.
  revert i m log w.
  induction fuel as [|fuel IH]; intros i m log w Hn Hi Hfuel; [lia|].
  cbn [fold_from]. rewrite elems_push, Hn.
  destruct (Nat.ltb_spec i n) as [Hlt|Hge].
  - destruct (lookup_lt_is_Some_2 (elems w a) i) as [x Hx]; [lia|].
    unfold bind. rewrite Hx, traced_run.
    change (default VUndefined (Some x)) with x.
    pose proof (F_keeps_length [m; x] w) as Hlen.
    destruct (F [m; x] w) as [[v|e|] w1] eqn:HF; cbn [snd] in Hlen.
    + destruct (IH (S i) v (log ++ [Call [m; x] (heap w) v]) w1)
        as (r & w' & new & Hrun & Hcalls & Hok & Hret); [lia ..|].
      exists r, w', (Call [m; x] (heap w) v :: new).
      rewrite Hrun, <- app_assoc. split; [done|]. split; [|split; [|done]].
      * intros [|k] c Hc.
        -- injection Hc as <-. exists m, x. by rewrite Nat.add_0_r.
        -- replace (i + S k) with (S i + k) by lia. by apply Hcalls.
      * intros v' Hv'. specialize (Hok v' Hv'). cbn. lia.
    + exists (Throw e), w1, []. rewrite app_nil_r.
      split; [done|]. split; [done|]. split; [done|].
      intros Hret. destruct (Hret [m; x] w) as [v Hv]. by rewrite HF in Hv.
    + exists Timeout, w1, []. rewrite app_nil_r.
      split; [done|]. split; [done|]. split; [done|].
      intros Hret. destruct (Hret [m; x] w) as [v Hv]. by rewrite HF in Hv.
  - exists (Ok m), w, []. rewrite app_nil_r.
    split; [done|]. split; [done|]. split; [|by eexists].
    intros v _. cbn. lia.
Qed.

(** X13. For an aggregator that keeps the length of the array, the calls
    of the aggregator that [reduce] has made are, in order, calls on an
    accumulator and the element at index 0, at index 1, and so on, each
    element as it was at the time of its call; when [reduce] returns
    there has been exactly one call per element; and it does return when
    every call of the aggregator returns. *)
Theorem reduce_calls_aggregator_once_per_element (fuel : nat) (m0 : value)
    (w : world U) :
  length (elems w a) < fuel →
  let '(r, w') := scratch.reduce fuel a (traced Call F) m0 (push [] w) in
  (∀ i c, log_of w' !! i = Some c →
     ∃ m x, cr_args c = [m; x] ∧ stored (cr_store c) a !! i = Some x)
  ∧ (∀ v, r = Ok v → length (log_of w') = length (elems w a))
  ∧ (returns_normally F → ∃ v, r = Ok v).
Proof.
  intros Hfuel. rewrite reduce_fold_from.
  destruct (fold_from_traced (length (elems w a)) fuel 0 m0 [] w)
    as (r & w' & new & -> & Hcalls & Hok & Hret); [done | lia | lia |].
  cbn [app log_of push user fst]. split; [done|]. split; [|done].
  intros v Hv. rewrite (Hok v Hv). lia.
Qed.
End ReduceCalls.

Definition summing : list value -> M unit value :=
  fun args => ret (plus (arg 0 args) (arg 1 args)).

Lemma reduce_calls_witness :
  let '(r, w') :=
    scratch.reduce 4 0 (traced Call summing) (VNum 0)
      (push [] (World [[VNum 1; VNum 2; VNum 3]] tt)) in
  (∀ i c, log_of w' !! i = Some c →
     ∃ m x, cr_args c = [m; x] ∧ stored (cr_store c) 0 !! i = Some x)
  ∧ (∀ v, r = Ok v → length (log_of w') = 3)
  ∧ (returns_normally summing → ∃ v, r = Ok v).
Proof.
  apply (reduce_calls_aggregator_once_per_element summing 0
           (ret_keeps_length _ 0) 4 (VNum 0)
           (World [[VNum 1; VNum 2; VNum 3]] tt)).
  cbn. lia.
Defined.

(** ** Empty arrays *)

(** X14. Over an empty array no callback is called, whatever it is:
    [forEach] returns [undefined] and [reduce] its initial accumulator in
    the world they were called in, and [map], [filter], [pluck] and
    [compact] return a new empty array; a recursion depth of one is
    enough. *)
Theorem empty_array_calls_nothing {U} (fn : func U) (a : loc) (m : value)
    (property : string) (fuel : nat) (w : world U) :
  elems w a = [] →
  let r := VArr (length (heap w)) in
  let allocated := World (heap w ++ [[]]) (user w) in
  scratch.forEach (S fuel) a fn w = (Ok VUndefined, w)
  ∧ scratch.reduce (S fuel) a fn m w = (Ok m, w)
  ∧ scratch.map (S fuel) a fn w = (Ok r, allocated)
  ∧ scratch.filter (S fuel) a fn w = (Ok r, allocated)
  ∧ scratch.pluck (S fuel) a property w = (Ok r, allocated)
  ∧ scratch.compact (S fuel) a w = (Ok r, allocated).
Proof.
  intros Hnil. cbv zeta.
  assert (∀ f : func U, scratch.reduce (S fuel) a f (VArr (length (heap w)))
                          (World (heap w ++ [[]]) (user w))
                        = (Ok (VArr (length (heap w))),
                           World (heap w ++ [[]]) (user w))) as Hreduce.
  { intros f. rewrite reduce_fold_from. cbn [fold_from].
    by rewrite elems_new_array, Hnil. }
  repeat split; try apply Hreduce.
  - rewrite forEach_each_from. cbn [each_from]. by rewrite Hnil.
  - rewrite reduce_fold_from. cbn [fold_from]. by rewrite Hnil.
Qed.

Lemma empty_array_witness :
  scratch.forEach 1 0 (NotFn VNull) (World [[]] tt) = (Ok VUndefined, World [[]] tt)
  ∧ scratch.reduce 1 0 (NotFn VNull) (VNum 5) (World [[]] tt)
    = (Ok (VNum 5), World [[]] tt)
  ∧ scratch.map 1 0 (NotFn VNull) (World [[]] tt) = (Ok (VArr 1), World [[]; []] tt)
  ∧ scratch.filter 1 0 (NotFn VNull) (World [[]] tt)
    = (Ok (VArr 1), World [[]; []] tt)
  ∧ scratch.pluck 1 0 "a" (World [[]] tt) = (Ok (VArr 1), World [[]; []] tt)
  ∧ scratch.compact 1 0 (World [[]] tt) = (Ok (VArr 1), World [[]; []] tt).
Proof.
  exact (empty_array_calls_nothing (NotFn VNull) 0 (VNum 5) "a" 0
           (World [[]] tt) eq_refl).
Defined.

(** ** The loops have no effect of their own *)

Lemma for_body_run_args {U} (update fn : func U) args (w : world U) :
  call (scratch.for_body update fn) args w
  = call (scratch.for_body update fn) [] w.
Proof. reflexivity. Qed.

(** Every call of [f] keeps the property [I] of the world. *)
Definition keeps_invariant {U} (I : world U -> Prop) (f : func U) : Prop :=
  ∀ args w, I w → I (snd (call f args w)).

Section Invariants.
Context {U : Type}.
Variable I : world U -> Prop.

Lemma loop_keeps_invariant (c b : func U) (fuel : nat) (w : world U) :
  keeps_invariant I c → keeps_invariant I b →
  I w → I (snd (scratch.loop fuel c b w)).
Proof.
  intros Hc Hb. revert w. induction fuel as [|fuel IH]; intros w Hw; [done|].
  cbn [scratch.loop]. unfold bind at 1. specialize (Hc [] w Hw).
  destruct (call c [] w) as [[x|e|] w1]; cbn [snd] in Hc; [|done ..].
  destruct (truthy x); [|done]. unfold bind. specialize (Hb [] w1 Hc).
  destruct (call b [] w1) as [[y|e|] w2]; cbn [snd] in Hb; [|done ..].
  by apply IH.
Qed.

Lemma each_from_keeps_invariant (f : func U) (a : loc) (fuel i : nat)
    (w : world U) :
  keeps_invariant I f → I w → I (snd (each_from fuel a f i w)).
Proof.
  intros Hf. revert i w. induction fuel as [|fuel IH]; intros i w Hw; [done|].
  cbn [each_from]. destruct (i <? _); [|done]. unfold bind.
  specialize (Hf [default VUndefined (elems w a !! i)] w Hw).
  destruct (call f _ w) as [[y|e|] w1]; cbn [snd] in Hf; [|done ..].
  by apply IH.
Qed.

Lemma fold_from_keeps_invariant (f : func U) (a : loc) (fuel i : nat)
    (m : value) (w : world U) :
  keeps_invariant I f → I w → I (snd (fold_from fuel a f i m w)).
Proof.
  intros Hf. revert i m w. induction fuel as [|fuel IH]; intros i m w Hw; [done|].
  cbn [fold_from]. destruct (i <? _); [|done]. unfold bind.
  specialize (Hf [m; default VUndefined (elems w a !! i)] w Hw).
  destruct (call f _ w) as [[y|e|] w1]; cbn [snd] in Hf; [|done ..].
  by apply IH.
Qed.

(** X15. [while], [for], [forEach] and [reduce] change nothing
    themselves: a property of the world that every call of their
    callbacks keeps still holds when they return, throw or run out of
    depth; in particular an array that no callback writes to is as it
    was. *)
Theorem loops_keep_what_callbacks_keep (init condition update fn : func U)
    (a : loc) (m : value) (fuel : nat) (w : world U) :
  keeps_invariant I init → keeps_invariant I condition →
  keeps_invariant I update → keeps_invariant I fn →
  I w →
  I (snd (scratch.while_ fuel condition fn w))
  ∧ I (snd (scratch.for_ fuel init condition update fn w))
  ∧ I (snd (scratch.forEach fuel a fn w))
  ∧ I (snd (scratch.reduce fuel a fn m w)).
Proof.
  intros Hinit Hcond Hupdate Hfn Hw.
  assert (∀ b w0, keeps_invariant I b → I w0 →
                  I (snd (scratch.while_ fuel condition b w0))) as Hwhile.
  { intros b w0 Hb Hw0. unfold scratch.while_.
    destruct condition as [g|v] eqn:Hg; [|done]. unfold bind.
    pose proof (loop_keeps_invariant (Fn g) b fuel w0 Hcond Hb Hw0) as Hl.
    by destruct (scratch.loop fuel (Fn g) b w0) as [[x|e|] w1]. }
  split; [by apply Hwhile|]. split; [|split].
  - unfold scratch.for_. unfold bind at 1. specialize (Hinit [] w Hw).
    destruct (call init [] w) as [[x|e|] w1]; cbn [snd] in Hinit; [|done ..].
    unfold bind.
    assert (keeps_invariant I (scratch.for_body update fn)) as Hbody.
    { intros args w0 Hw0. rewrite for_body_run_args, for_body_run.
      specialize (Hfn [] w0 Hw0).
      destruct (call fn [] w0) as [[y|e|] w2]; cbn [snd] in Hfn; [|done ..].
      specialize (Hupdate [] w2 Hfn).
      by destruct (call update [] w2) as [[z|e|] w3]. }
    pose proof (Hwhile _ w1 Hbody Hinit) as Hl.
    by destruct (scratch.while_ fuel condition _ w1) as [[y|e|] w2].
  - rewrite forEach_each_from. by apply each_from_keeps_invariant.
  - rewrite reduce_fold_from. by apply fold_from_keeps_invariant.
Qed.
End Invariants.

(** The array at address 1 holds [[7]]. *)
Definition other_array_intact (w : world unit) : Prop :=
  heap w !! 1 = Some [VNum 7].

Lemma overwriting_keeps_other_array :
  keeps_invariant other_array_intact (Fn overwriting_callback).
Proof.
  intros args [h u] H. unfold other_array_intact in *. cbn in *.
  by rewrite list_lookup_insert_ne.
Defined.

Lemma ret_keeps_other_array (v : value) :
  keeps_invariant other_array_intact (Fn (fun _ => ret v)).
Proof. intros args w H. exact H. Defined.

(** The loops run with a callback that writes to the array at address 0:
    the array at address 1 is as it was. *)
Lemma loops_keep_witness :
  other_array_intact
    (snd (scratch.while_ 5 (Fn (fun _ => ret (VBool false)))
            (Fn overwriting_callback)
            (World [[VNum 1; VNum 2]; [VNum 7]] tt)))
  ∧ other_array_intact
      (snd (scratch.for_ 5 (Fn (fun _ => ret VUndefined))
              (Fn (fun _ => ret (VBool false))) (Fn (fun _ => ret VUndefined))
              (Fn overwriting_callback)
              (World [[VNum 1; VNum 2]; [VNum 7]] tt)))
  ∧ other_array_intact
      (snd (scratch.forEach 5 0 (Fn overwriting_callback)
              (World [[VNum 1; VNum 2]; [VNum 7]] tt)))
  ∧ other_array_intact
      (snd (scratch.reduce 5 0 (Fn overwriting_callback) VNull
              (World [[VNum 1; VNum 2]; [VNum 7]] tt))).
Proof.
  apply (loops_keep_what_callbacks_keep other_array_intact
           (Fn (fun _ => ret VUndefined)) (Fn (fun _ => ret (VBool false)))
           (Fn (fun _ => ret VUndefined)) (Fn overwriting_callback)
           0 VNull 5 (World [[VNum 1; VNum 2]; [VNum 7]] tt)
           (ret_keeps_other_array _) (ret_keeps_other_array _)
           (ret_keeps_other_array _) overwriting_keeps_other_array).
  reflexivity.
Defined.
